(** * Spiderfy layout: the offset generators of [src/App.tsx]

    The component [App] holds two layout functions,
    [calculateSpiderfiedPositionsCircle] and [calculateSpiderfiedPositions],
    and the callback of [spiderFyCluster] that picks one of them from the
    number of leaves of the clicked cluster.

    Numbers.  Every value of the source is a JavaScript [number].  The
    functions are written once over an interface [JsNumber] that lists the
    operations the source applies (literals, [+], [*], [/], [Math.cos],
    [Math.sin], [Math.PI]); nothing is assumed about them, so what is proved
    at that level (length, emptiness, prefixes, the choice of a layout)
    holds for IEEE doubles as well.  The geometric statements are
    proved at the instance [R_JsNumber], exact real arithmetic, which is the
    reading the specification gives to an offset (a pair of real numbers);
    rounding is not modelled there.

    The argument [count] and the loop counter [i] only ever hold integers
    (the caller passes an array length, the specification a leaf count),
    they are modelled in [Z]; a fractional [count] is outside the model. *)

From Stdlib Require Import ZArith List Lia QArith.
From Stdlib Require Import Reals Lra Qreals.
From Stdlib Require Qround String DecimalString.
Import ListNotations.

Set Implicit Arguments.

(** ** The arithmetic of a JavaScript number *)

Class JsNumber (num : Type) : Type := {
  ofZ      : Z -> num;          (* an integer literal, or the counter [i] *)
  ofQ      : Q -> num;          (* a decimal literal such as [0.0005] *)
  add      : num -> num -> num;
  mul      : num -> num -> num;
  div      : num -> num -> num;
  Math_PI  : num;
  Math_cos : num -> num;
  Math_sin : num -> num
}.

Declare Scope js_scope.
Delimit Scope js_scope with js.
Notation "x + y" := (add x y) : js_scope.
Notation "x * y" := (mul x y) : js_scope.
Notation "x / y" := (div x y) : js_scope.

(** ** The [for (let i = 0; i < count; i += 1)] loop *)

Section ForLoop.
Context {St : Type}.
Variable body : Z -> St -> St.

(** [fuel] bounds the number of iterations; the guard [i < count] is
    tested at every turn, as in the source. *)
Fixpoint for_from (fuel : nat) (i count : Z) (s : St) : St :=
  match fuel with
  | O => s
  | S fuel' =>
      if (i <? count)%Z
      then for_from fuel' (i + 1) count (body i s)
      else s
  end.

Definition for_loop (count : Z) (s : St) : St :=
  for_from (Z.to_nat count) 0 count s.

(** [k] turns of the body from counter [i], the guard left out. *)
Fixpoint turns (k : nat) (i : Z) (s : St) : St :=
  match k with
  | O => s
  | S k' => turns k' (i + 1) (body i s)
  end.

(** Complete executions of the loop, as a relation: the loop stops exactly
    when the guard fails. *)
Inductive for_runs (count : Z) : Z -> St -> St -> Prop :=
| for_runs_exit : forall i s,
    (count <= i)%Z -> for_runs count i s s
| for_runs_iter : forall i s s',
    (i < count)%Z ->
    for_runs count (i + 1) (body i s) s' ->
    for_runs count i s s'.
End ForLoop.

(** ** The layout functions *)

Section Layout.
Context {num : Type} {JN : JsNumber num}.
Local Open Scope js_scope.

(** A point [[x, y]] pushed on [points]. *)
Definition Offset : Type := (num * num)%type.

(** [const leavesOffset = [0, 0]], read as [leavesOffset[0]] and
    [leavesOffset[1]]. *)
Definition leavesOffset : num * num := (ofZ 0, ofZ 0).

(** *** [calculateSpiderfiedPositionsCircle] *)

Record CircleState : Type := mkCircle {
  c_points : list Offset;
  c_angle  : num
}.

Definition circle_leavesSeparation : num := ofZ 80.

Definition circle_theta (count : Z) : num := (ofZ 2 * Math_PI) / ofZ count.

Definition circle_init (count : Z) : CircleState :=
  mkCircle [] (circle_theta count).

Definition circle_body (count : Z) (i : Z) (s : CircleState) : CircleState :=
  let angle := circle_theta count * ofZ i in
  let x := circle_leavesSeparation * Math_cos angle + fst leavesOffset in
  let y := circle_leavesSeparation * Math_sin angle + snd leavesOffset in
  mkCircle (c_points s ++ [(x, y)]) angle.

(** The point [[x, y]] a turn of the loop pushes. *)
Definition circle_pushed (count : Z) (i : Z) (s : CircleState) : Offset :=
  let angle := circle_theta count * ofZ i in
  (circle_leavesSeparation * Math_cos angle + fst leavesOffset,
   circle_leavesSeparation * Math_sin angle + snd leavesOffset).

Definition calculateSpiderfiedPositionsCircle (count : Z) : list Offset :=
  c_points (for_loop (circle_body count) count (circle_init count)).

(** *** [calculateSpiderfiedPositions] *)

Record SpiralState : Type := mkSpiral {
  s_points    : list Offset;
  s_legLength : num;
  s_angle     : num
}.

Definition legLengthStart : num := ofZ 25.
Definition legLengthFactor : num := ofZ 5.
Definition spiral_leavesSeparation : num := ofZ 40.

Definition spiral_init : SpiralState :=
  mkSpiral [] legLengthStart (ofZ 0).

Definition spiral_body (i : Z) (s : SpiralState) : SpiralState :=
  let legLength := s_legLength s in
  let angle :=
    s_angle s
    + (spiral_leavesSeparation / legLength + ofZ i * ofQ (5 # 10000)%Q) in
  let x := legLength * Math_cos angle + fst leavesOffset in
  let y := legLength * Math_sin angle + snd leavesOffset in
  mkSpiral (s_points s ++ [(x, y)])
           (legLength + (Math_PI * ofZ 2 * legLengthFactor) / angle)
           angle.

(** The point [[x, y]] a turn of the loop pushes. *)
Definition spiral_pushed (i : Z) (s : SpiralState) : Offset :=
  let legLength := s_legLength s in
  let angle :=
    s_angle s
    + (spiral_leavesSeparation / legLength + ofZ i * ofQ (5 # 10000)%Q) in
  (legLength * Math_cos angle + fst leavesOffset,
   legLength * Math_sin angle + snd leavesOffset).

Definition calculateSpiderfiedPositions (count : Z) : list Offset :=
  s_points (for_loop spiral_body count spiral_init).

(** *** The callback of [getClusterLeaves] in [spiderFyCluster]

    Clustering belongs to the map library: the callback receives its
    answer, an error or the leaves of the cluster.  Of a leaf only what
    the callback copies is kept: its properties (opaque here) and its
    geometry, whose coordinates are overwritten. *)

Variable Props : Type.

Record Leaf : Type := mkLeaf {
  leaf_properties  : Props;
  leaf_coordinates : num * num
}.

(** A feature of the [spiderfy] source: [iconOffset] is
    [spiderfiedPositions[index]], which is [undefined] past the end. *)
Record SpiderLeaf : Type := mkSpiderLeaf {
  sl_properties  : Props;
  sl_iconOffset  : option Offset;
  sl_coordinates : num * num
}.

(** What the callback writes on the map. *)
Record MapState : Type := mkMap {
  spiderfyData       : list SpiderLeaf;
  clustersOpacity    : num;
  unclusteredOpacity : num
}.

(** [features.length > 10 ? calculateSpiderfiedPositions(features.length)
                          : calculateSpiderfiedPositionsCircle(features.length)] *)
Definition spiderfiedPositions (features : list Leaf) : list Offset :=
  let length := Z.of_nat (List.length features) in
  if (length >? 10)%Z
  then calculateSpiderfiedPositions length
  else calculateSpiderfiedPositionsCircle length.

(** [features.map((feature, index) => ...)], from [index] on. *)
Fixpoint spiderLeaves (positions : list Offset) (lngLat : num * num)
         (index : nat) (features : list Leaf) : list SpiderLeaf :=
  match features with
  | [] => []
  | feature :: rest =>
      mkSpiderLeaf (leaf_properties feature)
                   (nth_error positions index)
                   lngLat
      :: spiderLeaves positions lngLat (S index) rest
  end.

(** The callback: [error] and [features] are the two arguments the library
    passes; the result is the state of the map afterwards. *)
Definition leavesCallback (lngLat : num * num) (error : bool)
           (features : option (list Leaf)) (map : MapState) : MapState :=
  if error then map
  else match features with
       | None => map
       | Some features =>
           if (Z.of_nat (List.length features) >? 0)%Z
           then mkMap (spiderLeaves (spiderfiedPositions features)
                                    lngLat 0 features)
                      (ofQ (6 # 10)%Q)
                      (ofQ (5 # 10)%Q)
           else map
       end.

(** What [source.getClusterLeaves(clusterId, Infinity, 0, callback)] hands
    to its callback: the [error] flag and the leaves. *)
Definition GeoJSONSource : Type := Z -> bool * option (list Leaf).

(** [spiderFyCluster(source, clusterId, lngLat)], with the component's
    [map] state made explicit: without a map nothing happens. *)
Definition spiderFyCluster (map : option MapState) (source : GeoJSONSource)
           (clusterId : Z) (lngLat : num * num) : option MapState :=
  match map with
  | None => None
  | Some map =>
      Some (leavesCallback lngLat (fst (source clusterId))
                           (snd (source clusterId)) map)
  end.
End Layout.

(** ** Exact real arithmetic *)

#[export] Instance R_JsNumber : JsNumber R := {
  ofZ      := IZR;
  ofQ      := Q2R;
  add      := Rplus;
  mul      := Rmult;
  div      := Rdiv;
  Math_PI  := PI;
  Math_cos := cos;
  Math_sin := sin
}.

(** ** Symbolic arithmetic

    The free instance: a number is the expression that computes it.  With it
    the layout functions run inside Rocq and show, operation by operation,
    what the source evaluates. *)

Inductive JsExpr : Type :=
| Int  : Z -> JsExpr
| Dec  : Q -> JsExpr
| Add  : JsExpr -> JsExpr -> JsExpr
| Mul  : JsExpr -> JsExpr -> JsExpr
| Div  : JsExpr -> JsExpr -> JsExpr
| Pi   : JsExpr
| Cos  : JsExpr -> JsExpr
| Sin  : JsExpr -> JsExpr.

#[export] Instance JsExpr_JsNumber : JsNumber JsExpr := {
  ofZ      := Int;
  ofQ      := Dec;
  add      := Add;
  mul      := Mul;
  div      := Div;
  Math_PI  := Pi;
  Math_cos := Cos;
  Math_sin := Sin
}.

(** The value of an expression in any arithmetic. *)
Fixpoint eval {num : Type} {JN : JsNumber num} (e : JsExpr) : num :=
  match e with
  | Int z => ofZ z
  | Dec q => ofQ q
  | Add a b => add (eval a) (eval b)
  | Mul a b => mul (eval a) (eval b)
  | Div a b => div (eval a) (eval b)
  | Pi => Math_PI
  | Cos a => Math_cos (eval a)
  | Sin a => Math_sin (eval a)
  end.

Definition eval_offset {num : Type} {JN : JsNumber num}
           (p : @Offset JsExpr) : @Offset num :=
  (eval (fst p), eval (snd p)).

Definition eval_circle {num : Type} {JN : JsNumber num}
           (s : @CircleState JsExpr) : @CircleState num :=
  mkCircle (map eval_offset (c_points s)) (eval (c_angle s)).

Definition eval_spiral {num : Type} {JN : JsNumber num}
           (s : @SpiralState JsExpr) : @SpiralState num :=
  mkSpiral (map eval_offset (s_points s))
           (eval (s_legLength s)) (eval (s_angle s)).

(** [n] leaves without properties, all at the origin: a cluster to run the
    callback on. *)
Definition sample_leaves (n : nat) : list (Leaf (num := R) unit) :=
  repeat (mkLeaf tt (0%R, 0%R)) n.

Definition sample_map : MapState (num := R) unit :=
  mkMap [] 1%R 1%R.

(** A source whose every cluster has [n] leaves. *)
Definition sample_source (n : nat) : GeoJSONSource (num := R) unit :=
  fun _ => (false, Some (sample_leaves n)).

(** ** What a call returns, as a relation on complete executions *)

Section Calls.
Context {num : Type} {JN : JsNumber num}.

(** [circle_returns count points]: some complete execution of the body of
    [calculateSpiderfiedPositionsCircle(count)] reaches [return points]. *)
Definition circle_returns (count : Z) (points : list (@Offset num)) : Prop :=
  exists s,
    for_runs (circle_body count) count 0 (circle_init count) s
    /\ points = c_points s.

(** The same for [calculateSpiderfiedPositions(count)]. *)
Definition spiral_returns (count : Z) (points : list (@Offset num)) : Prop :=
  exists s,
    for_runs spiral_body count 0 spiral_init s
    /\ points = s_points s.
End Calls.

(** ** The layouts as the specification words them (real numbers) *)

Section SpecWords.
Local Open Scope R_scope.

(** Circular layout: leaf [i] of [count] sits at angle [i * (2 pi / count)]
    on the circle of radius [r = 80]. *)
Definition spec_radius : R := 80.

Definition spec_theta (count : Z) (i : nat) : R :=
  INR i * (2 * PI / IZR count).

Definition spec_circle_offset (count : Z) (i : nat) : R * R :=
  (spec_radius * cos (spec_theta count i),
   spec_radius * sin (spec_theta count i)).

(** Spiral layout: [(L_i, a_i)], the leg length and the angle at which
    point [i] is placed.  The angle starts at 0 and before each point
    increases by [40 / L + i * 0.0005]; the leg length starts at 25 and
    after each point grows by [(2 pi 5) / a]. *)
Fixpoint spec_spiral (i : nat) : R * R :=
  match i with
  | O => (25, 0 + (40 / 25 + INR 0 * (5 / 10000)))
  | S k =>
      let L := fst (spec_spiral k) + (2 * PI * 5) / snd (spec_spiral k) in
      (L, snd (spec_spiral k) + (40 / L + INR (S k) * (5 / 10000)))
  end.

Definition spec_leg (i : nat) : R := fst (spec_spiral i).
Definition spec_angle (i : nat) : R := snd (spec_spiral i).

Definition spec_spiral_offset (i : nat) : R * R :=
  (spec_leg i * cos (spec_angle i), spec_leg i * sin (spec_angle i)).

(** Euclidean distance between two offsets; the anchor is the origin. *)
Definition dist (p q : R * R) : R :=
  sqrt ((fst p - fst q) * (fst p - fst q) + (snd p - snd q) * (snd p - snd q)).

Definition anchor : R * R := (0, 0).
End SpecWords.

(** ** The style: icons and cluster circles

    The layers carry two expressions of the map library's style language.
    ['case', c1, o1, ..., default] is the output of the first condition
    that holds; ['step', input, o0, s1, o1, s2, o2] is [o0] below [s1],
    [o1] from [s1] up to [s2] and [o2] from [s2] on (the comment above the
    [clusters] layer says so).  A magnitude is only compared, it is a
    rational; a point count is an integer. *)

Section Style.
Import String.
Local Open Scope string_scope.

(** [['<', ['get', 'mag'], n]] *)
Definition Qltb (x y : Q) : bool := negb (Qle_bool y x).

(** ['icon-image'] of the layers [unclustered-point] and
    [unclustered-point-spiderfy] (the same expression twice). *)
Definition iconImage (mag : Q) : string :=
  if Qltb mag 2 then "1-icon"
  else if Qltb mag 3 then "2-icon"
  else if Qltb mag 4 then "3-icon"
  else if Qltb mag 5 then "4-icon"
  else if Qltb mag 6 then "5-icon"
  else if Qltb mag 7 then "6-icon"
  else if Qltb mag 8 then "7-icon"
  else "0-icon".

(** ['circle-color'] and ['circle-radius'] of the layer [clusters]. *)
Definition circleColor (point_count : Z) : string :=
  if (point_count <? 100)%Z then "#51bbd6"
  else if (point_count <? 750)%Z then "#f1f075"
  else "#f28cb1".

Definition circleRadius (point_count : Z) : Z :=
  if (point_count <? 100)%Z then 20
  else if (point_count <? 750)%Z then 30
  else 40.

(** A number in a template literal or added to a string. *)
Definition numberToString (n : nat) : string :=
  DecimalString.NilEmpty.string_of_uint (Nat.to_uint n).

(** [`/markers/marker-${numberColor}.png`] and [numberColor + '-icon']. *)
Definition imageURL (numberColor : nat) : string :=
  "/markers/marker-" ++ numberToString numberColor ++ ".png".

Definition iconId (numberColor : nat) : string :=
  numberToString numberColor ++ "-icon".

(** What [map.loadImage] passes to its callback: an error, no image, or an
    image (its pixels play no part). *)
Inductive LoadResult : Type :=
| LoadError
| NoImage
| Image.

(** One callback of [addIconImages]: the image is added unless the load
    failed ([throw error], which ends this callback only) or gave
    nothing. *)
Definition addIconImage (loadImage : string -> LoadResult)
           (images : list string) (numberColor : nat) : list string :=
  match loadImage (imageURL numberColor) with
  | Image => images ++ [iconId numberColor]
  | LoadError | NoImage => images
  end.

(** [Array.from({ length: 7 }).forEach((_, numberColor) => ...)]; [images]
    lists the ids added to the style, here in the order of the indices
    (the loads finish in any order, only membership is meaningful). *)
Definition addIconImages (loadImage : string -> LoadResult)
           (images : list string) : list string :=
  fold_left (addIconImage loadImage) (seq 0 7) images.
End Style.

(** ** The handlers of the map events

    The handlers are registered once [map] exists, so each works on an
    [App].  The style is absent until the [load] event: before it there is
    no source and no layer.  A call of [map.easeTo] is returned as a
    command, the camera itself belongs to the library. *)

Section Handlers.
Context {num : Type} {JN : JsNumber num}.
Variable Props : Type.
Import String.

(** [const clusterMaxZoom = 12] *)
Definition clusterMaxZoom : Q := 12.

Record App : Type := mkApp {
  app_style  : option (@MapState num Props);  (* sources, layers *)
  app_images : list string;                  (* [map.addImage] ids *)
  app_cursor : string                        (* canvas cursor *)
}.

(** [map.easeTo({ center, zoom })], [zoom] optional. *)
Record EaseTo : Type := mkEaseTo {
  ease_center : num * num;
  ease_zoom   : option Q
}.

(** The source [earthquakes], as the click handler uses it: the answers of
    [getClusterExpansionZoom] ([err], [zoom]) and of [getClusterLeaves]. *)
Record ClusterSource : Type := mkSource {
  expansionZoom : Z -> bool * option Q;
  clusterLeaves : @GeoJSONSource num Props
}.

(** [createLayers(); createSpiderFyLayers(); addIconImages()] on [load]:
    the source [spiderfy] starts with no feature, and the two opacities are
    not set, which the style language reads as 1.  Were the handler to run
    on a style that already has its sources, [createLayers] would throw at
    its first [map.addSource] (the id is taken) and nothing after it would
    run: the application stays as it is. *)
Definition onLoad (loadImage : string -> LoadResult) (app : App) : App :=
  match app_style app with
  | Some _ => app
  | None =>
      mkApp (Some (mkMap [] (ofZ 1) (ofZ 1)))
            (addIconImages loadImage (app_images app))
            (app_cursor app)
  end.

(** [mouseEnterLeave] *)
Definition mouseEnterLeave (type : string) (app : App) : App :=
  mkApp (app_style app) (app_images app)
        (if String.eqb type "mouseenter" then "pointer"%string
         else ""%string).

(** [deletePointsSpiderfy]: nothing without the source [spiderfy]. *)
Definition deletePointsSpiderfy (app : App) : App :=
  match app_style app with
  | None => app
  | Some _ =>
      mkApp (Some (mkMap [] (ofZ 1) (ofZ 1)))
            (app_images app) (app_cursor app)
  end.

(** The callback of [getClusterExpansionZoom] in [centerMapToCluster]. *)
Definition expansionCallback (source : ClusterSource) (clusterId : Z)
           (lngLat : num * num) (err : bool) (zoom : option Q)
           (app : App) : App * option EaseTo :=
  if err then (app, None)
  else match zoom with
       | None => (app, None)
       | Some zoom =>
           if Qeq_bool zoom 0 then (app, None)
           else if Qltb clusterMaxZoom zoom
           then (mkApp (spiderFyCluster (app_style app)
                                        (clusterLeaves source)
                                        clusterId lngLat)
                       (app_images app) (app_cursor app),
                 Some (mkEaseTo lngLat None))
           else (app, Some (mkEaseTo lngLat (Some zoom)))
       end.

(** [centerMapToCluster]: [rendered] is the answer of
    [queryRenderedFeatures], each feature with its [properties] (or none),
    of which [cluster_id] is read; the source [earthquakes] is there once
    the style is. *)
Definition centerMapToCluster (rendered : list (option Z))
           (source : ClusterSource) (lngLat : num * num)
           (app : App) : App * option EaseTo :=
  match rendered with
  | [] => (app, None)
  | properties :: _ =>
      match properties, app_style app with
      | Some clusterId, Some _ =>
          expansionCallback source clusterId lngLat
                            (fst (expansionZoom source clusterId))
                            (snd (expansionZoom source clusterId)) app
      | _, _ => (app, None)
      end
  end.

(** The events the second [useEffect] subscribes to. *)
Inductive Event : Type :=
| Load (loadImage : string -> LoadResult)
| Click (rendered : list (option Z)) (source : ClusterSource)
        (lngLat : num * num)
| Mouse (type : string)
| ZoomStart
| TouchStart.

Definition handle (e : Event) (app : App) : App * option EaseTo :=
  match e with
  | Load loadImage => (onLoad loadImage app, None)
  | Click rendered source lngLat =>
      centerMapToCluster rendered source lngLat app
  | Mouse type => (mouseEnterLeave type app, None)
  | ZoomStart | TouchStart => (deletePointsSpiderfy app, None)
  end.

(** The application after a sequence of events. *)
Definition run (events : list Event) (app : App) : App :=
  fold_left (fun app e => fst (handle e app)) events app.

(** Before any event: nothing loaded, the cursor of the canvas unset. *)
Definition initialApp : App := mkApp None [] ""%string.
End Handlers.

(** A source [earthquakes] whose every cluster expands at [zoom] and has
    [n] leaves; the map once loaded; the map after a cluster of three leaves
    was spiderfied. *)
Definition sample_cluster (zoom : Q) (n : nat)
  : ClusterSource (num := R) unit :=
  mkSource (fun _ => (false, Some zoom)) (sample_source n).

Definition sample_loaded : MapState (num := R) unit :=
  mkMap [] 1%R 1%R.

Definition sample_spread : MapState (num := R) unit :=
  leavesCallback (0%R, 0%R) false (Some (sample_leaves 3)) sample_loaded.

Definition sample_app : App (num := R) unit :=
  mkApp (Some sample_loaded) [] String.EmptyString.

(** Sum of a list of offsets, coordinate by coordinate. *)
Definition sumOffsets (l : list (R * R)) : R * R :=
  fold_right (fun p acc => ((fst p + fst acc)%R, (snd p + snd acc)%R))
             (0%R, 0%R) l.

(** ** The loop: fuel, executions, and what it pushes *)

Section ForLoopFacts.
Context {St : Type}.
Variable body : Z -> St -> St.

Lemma for_from_turns (fuel : nat) : forall i count s,
  (Z.of_nat fuel <= count - i)%Z ->
  for_from body fuel i count s = turns body fuel i s.
Proof.
  induction fuel as [|fuel IH]; intros i count s Hle; [reflexivity|].
  cbn [for_from turns].
  destruct (Z.ltb_spec i count) as [_|Hge]; [|lia].
  apply IH. lia.
Qed.

Lemma for_loop_turns (count : Z) (s : St) :
  for_loop body count s = turns body (Z.to_nat count) 0 s.
Proof.
  unfold for_loop. destruct (Z.le_gt_cases 0 count) as [Hpos|Hneg].
  - apply for_from_turns. lia.
  - replace (Z.to_nat count) with O by lia. reflexivity.
Qed.

Lemma for_loop_nonpos (count : Z) (s : St) :
  (count <= 0)%Z -> for_loop body count s = s.
Proof.
  intros H. unfold for_loop.
  replace (Z.to_nat count) with O by lia. reflexivity.
Qed.

Lemma turns_snoc (k : nat) : forall i s,
  turns body (S k) i s = body (i + Z.of_nat k) (turns body k i s).
Proof.
  induction k as [|k IH]; intros i s.
  - cbn. f_equal. lia.
  - change (turns body (S (S k)) i s)
      with (turns body (S k) (i + 1) (body i s)).
    rewrite IH. cbn [turns]. f_equal. lia.
Qed.

Lemma turns_add (a b : nat) : forall i s,
  turns body (a + b) i s = turns body b (i + Z.of_nat a) (turns body a i s).
Proof.
  induction a as [|a IH]; intros i s.
  - cbn. f_equal. lia.
  - cbn [Nat.add turns]. rewrite IH. f_equal. lia.
Qed.

(** The fuel [Z.to_nat count] is enough: the function computes a complete
    execution, one that leaves the loop because the guard fails. *)
Lemma for_from_runs (fuel : nat) : forall i count s,
  (count - i <= Z.of_nat fuel)%Z ->
  for_runs body count i s (for_from body fuel i count s).
Proof.
  induction fuel as [|fuel IH]; intros i count s Hle.
  - apply for_runs_exit. lia.
  - cbn [for_from]. destruct (Z.ltb_spec i count) as [Hlt|Hge].
    + apply for_runs_iter; [assumption|]. apply IH. lia.
    + apply for_runs_exit. assumption.
Qed.

Lemma for_loop_runs (count : Z) (s : St) :
  for_runs body count 0 s (for_loop body count s).
Proof.
  unfold for_loop. apply for_from_runs. lia.
Qed.

Lemma for_runs_det (count i : Z) (s s1 s2 : St) :
  for_runs body count i s s1 -> for_runs body count i s s2 -> s1 = s2.
Proof.
  intros H1. revert s2.
  induction H1 as [i s Hge|i s s' Hlt _ IH]; intros s2 H2.
  - inversion H2; subst; [reflexivity|lia].
  - inversion H2; subst; [lia|]. apply IH. assumption.
Qed.

(** A body that pushes exactly one point per turn. *)
Context {P : Type}.
Variable points : St -> list P.
Variable pushed : Z -> St -> P.
Hypothesis body_push :
  forall i s, points (body i s) = points s ++ [pushed i s].

Lemma turns_length (k : nat) : forall i s,
  length (points (turns body k i s)) = (length (points s) + k)%nat.
Proof.
  induction k as [|k IH]; intros i s; cbn [turns].
  - lia.
  - rewrite IH, body_push, length_app. cbn. lia.
Qed.

Lemma turns_prefix (k : nat) : forall i s,
  firstn (length (points s)) (points (turns body k i s)) = points s.
Proof.
  induction k as [|k IH]; intros i s.
  - cbn. apply firstn_all.
  - rewrite turns_snoc, body_push, firstn_app.
    rewrite turns_length.
    replace (length (points s) - (length (points s) + k))%nat with O by lia.
    cbn [firstn]. rewrite app_nil_r. apply IH.
Qed.

Lemma turns_nth (k : nat) : forall j s,
  (j < k)%nat ->
  nth_error (points (turns body k 0 s)) (length (points s) + j)
  = Some (pushed (Z.of_nat j) (turns body j 0 s)).
Proof.
  induction k as [|k IH]; intros j s Hj; [lia|].
  rewrite turns_snoc, body_push.
  destruct (Nat.eq_dec j k) as [->|Hne].
  - rewrite nth_error_app2 by (rewrite turns_length; lia).
    rewrite turns_length.
    replace (length (points s) + k - (length (points s) + k))%nat
      with O by lia.
    reflexivity.
  - rewrite nth_error_app1 by (rewrite turns_length; lia).
    apply IH. lia.
Qed.
End ForLoopFacts.

(** ** Symbolic runs speak for every arithmetic *)

Section Eval.
Context {num : Type} {JN : JsNumber num}.

Lemma turns_commute {St1 St2 : Type} (f : St1 -> St2)
      (body1 : Z -> St1 -> St1) (body2 : Z -> St2 -> St2) :
  (forall i s, f (body1 i s) = body2 i (f s)) ->
  forall k i s, f (turns body1 k i s) = turns body2 k i (f s).
Proof.
  intros Hbody. induction k as [|k IH]; intros i s; [reflexivity|].
  cbn [turns]. rewrite IH, Hbody. reflexivity.
Qed.

Lemma circle_body_eval (count i : Z) (s : CircleState) :
  eval_circle (circle_body count i s)
  = circle_body (num := num) count i (eval_circle s).
Proof.
  unfold eval_circle, circle_body. cbn [c_points c_angle].
  rewrite map_app. reflexivity.
Qed.

Lemma spiral_body_eval (i : Z) (s : SpiralState) :
  eval_spiral (spiral_body i s) = spiral_body (num := num) i (eval_spiral s).
Proof.
  unfold eval_spiral, spiral_body. cbn [s_points s_legLength s_angle].
  rewrite map_app. reflexivity.
Qed.

Lemma circle_eval (count : Z) :
  map eval_offset (calculateSpiderfiedPositionsCircle count)
  = calculateSpiderfiedPositionsCircle (num := num) count.
Proof.
  unfold calculateSpiderfiedPositionsCircle. rewrite !for_loop_turns.
  change (map eval_offset (c_points ?s)) with (c_points (eval_circle s)).
  rewrite (turns_commute eval_circle _ _ (circle_body_eval count)).
  reflexivity.
Qed.

Lemma spiral_eval (count : Z) :
  map eval_offset (calculateSpiderfiedPositions count)
  = calculateSpiderfiedPositions (num := num) count.
Proof.
  unfold calculateSpiderfiedPositions. rewrite !for_loop_turns.
  change (map eval_offset (s_points ?s)) with (s_points (eval_spiral s)).
  rewrite (turns_commute eval_spiral _ _ spiral_body_eval).
  reflexivity.
Qed.
End Eval.

(** ** The two layouts, for any arithmetic *)

Section LayoutFacts.
Context {num : Type} {JN : JsNumber num}.

Lemma circle_body_push (count i : Z) (s : CircleState) :
  c_points (circle_body count i s)
  = c_points s ++ [circle_pushed count i s].
Proof. reflexivity. Qed.

Lemma spiral_body_push (i : Z) (s : SpiralState) :
  s_points (spiral_body i s) = s_points s ++ [spiral_pushed i s].
Proof. reflexivity. Qed.

Lemma circle_turns (count : Z) :
  calculateSpiderfiedPositionsCircle count
  = c_points (turns (circle_body count) (Z.to_nat count) 0
                    (circle_init count)).
Proof.
  unfold calculateSpiderfiedPositionsCircle.
  rewrite for_loop_turns. reflexivity.
Qed.

Lemma spiral_turns (count : Z) :
  calculateSpiderfiedPositions count
  = s_points (turns spiral_body (Z.to_nat count) 0 spiral_init).
Proof.
  unfold calculateSpiderfiedPositions.
  rewrite for_loop_turns. reflexivity.
Qed.

Lemma circle_length (count : Z) :
  length (calculateSpiderfiedPositionsCircle count) = Z.to_nat count.
Proof.
  rewrite circle_turns.
  rewrite (turns_length _ _ _ (circle_body_push count)). reflexivity.
Qed.

Lemma spiral_length (count : Z) :
  length (calculateSpiderfiedPositions count) = Z.to_nat count.
Proof.
  rewrite spiral_turns.
  rewrite (turns_length _ _ _ spiral_body_push). reflexivity.
Qed.

(** Entry [i] of the circular layout is the point pushed at turn [i]; it
    does not read the state. *)
Lemma circle_nth (count : Z) (i : nat) :
  (Z.of_nat i < count)%Z ->
  nth_error (calculateSpiderfiedPositionsCircle count) i
  = Some (circle_pushed count (Z.of_nat i) (circle_init count)).
Proof.
  intros Hi. rewrite circle_turns.
  pose proof (turns_nth _ _ _ (circle_body_push count)
                (k := Z.to_nat count) (j := i) (circle_init count)) as H.
  cbn [circle_init c_points length Nat.add] in H.
  rewrite H by lia. reflexivity.
Qed.

(** Entry [i] of the spiral layout is the point pushed from the state
    reached after [i] turns. *)
Lemma spiral_nth (count : Z) (i : nat) :
  (Z.of_nat i < count)%Z ->
  nth_error (calculateSpiderfiedPositions count) i
  = Some (spiral_pushed (Z.of_nat i) (turns spiral_body i 0 spiral_init)).
Proof.
  intros Hi. rewrite spiral_turns.
  pose proof (turns_nth _ _ _ spiral_body_push
                (k := Z.to_nat count) (j := i) spiral_init) as H.
  cbn [spiral_init s_points length Nat.add] in H.
  apply H. lia.
Qed.

Lemma circle_call (count : Z) :
  circle_returns count (calculateSpiderfiedPositionsCircle count).
Proof.
  exists (for_loop (circle_body count) count (circle_init count)).
  split; [apply for_loop_runs | reflexivity].
Qed.

Lemma spiral_call (count : Z) :
  spiral_returns count (calculateSpiderfiedPositions count).
Proof.
  exists (for_loop spiral_body count spiral_init).
  split; [apply for_loop_runs | reflexivity].
Qed.

(** C4.  For every [count >= 1] the circular layout and the spiral layout
    each return a sequence of exactly [count] offsets. *)
Theorem layouts_length (count : Z) :
  (1 <= count)%Z ->
  Z.of_nat (length (calculateSpiderfiedPositionsCircle count)) = count
  /\ Z.of_nat (length (calculateSpiderfiedPositions count)) = count.
Proof.
  intros Hc. rewrite circle_length, spiral_length. lia.
Qed.

(** C6.  For every [count < 1], zero and the negative counts included,
    both layout functions return the empty sequence: the call runs to its
    [return] (the loop guard fails at once, and nothing before the loop can
    throw) and what it returns is empty. *)
Theorem layouts_empty (count : Z) :
  (count < 1)%Z ->
  (calculateSpiderfiedPositionsCircle count = []
   /\ circle_returns count [])
  /\ (calculateSpiderfiedPositions count = []
      /\ spiral_returns count []).
Proof.
  intros Hc.
  assert (Hcircle : calculateSpiderfiedPositionsCircle count = []).
  { unfold calculateSpiderfiedPositionsCircle.
    rewrite for_loop_nonpos by lia. reflexivity. }
  assert (Hspiral : calculateSpiderfiedPositions count = []).
  { unfold calculateSpiderfiedPositions.
    rewrite for_loop_nonpos by lia. reflexivity. }
  split; split; try assumption.
  - rewrite <- Hcircle. apply circle_call.
  - rewrite <- Hspiral. apply spiral_call.
Qed.

(** A call has one outcome: the complete executions of either function on
    a given count all return what the function computes. *)
Lemma returns_functional (count : Z) :
  (forall points,
     circle_returns count points ->
     points = calculateSpiderfiedPositionsCircle count)
  /\ (forall points,
        spiral_returns count points ->
        points = calculateSpiderfiedPositions count).
Proof.
  split.
  - intros points [s [Hrun ->]].
    unfold calculateSpiderfiedPositionsCircle. f_equal.
    exact (for_runs_det Hrun (for_loop_runs _ _ _)).
  - intros points [s [Hrun ->]].
    unfold calculateSpiderfiedPositions. f_equal.
    exact (for_runs_det Hrun (for_loop_runs _ _ _)).
Qed.

(** C10.  The spiral layout is stable under prefixes: for
    [0 <= n <= m] the first [n] offsets of the layout for [m] are the
    layout for [n]. *)
Theorem spiral_prefix_stable (n m : Z) :
  (0 <= n <= m)%Z ->
  firstn (Z.to_nat n) (calculateSpiderfiedPositions m)
  = calculateSpiderfiedPositions n.
Proof.
  intros Hnm. rewrite !spiral_turns.
  replace (Z.to_nat m) with (Z.to_nat n + Z.to_nat (m - n))%nat by lia.
  rewrite turns_add.
  set (s := turns spiral_body (Z.to_nat n) 0 spiral_init).
  assert (Hlen : length (s_points s) = Z.to_nat n).
  { unfold s. rewrite (turns_length _ _ _ spiral_body_push). reflexivity. }
  rewrite <- Hlen at 1.
  apply (turns_prefix _ _ _ spiral_body_push).
Qed.

(** C5.  [spiderFyCluster] picks the layout from the number of leaves
    alone: with at most 10 leaves (10 included) the offsets it attaches are
    those of the circular layout, with more than 10 those of the spiral
    layout. *)
Theorem spiderFyCluster_layout_choice
        (Props : Type) (map : MapState Props) (source : GeoJSONSource Props)
        (clusterId : Z) (lngLat : num * num) (features : list (Leaf Props)) :
  source clusterId = (false, Some features) ->
  (0 < length features)%nat ->
  let count := Z.of_nat (length features) in
  ((count <= 10)%Z ->
   spiderfiedPositions features = calculateSpiderfiedPositionsCircle count
   /\ spiderFyCluster (Some map) source clusterId lngLat
      = Some (mkMap (spiderLeaves (calculateSpiderfiedPositionsCircle count)
                                  lngLat 0 features)
                    (ofQ (6 # 10)%Q) (ofQ (5 # 10)%Q)))
  /\ ((10 < count)%Z ->
      spiderfiedPositions features = calculateSpiderfiedPositions count
      /\ spiderFyCluster (Some map) source clusterId lngLat
         = Some (mkMap (spiderLeaves (calculateSpiderfiedPositions count)
                                     lngLat 0 features)
                       (ofQ (6 # 10)%Q) (ofQ (5 # 10)%Q))).
Proof.
  intros Hsrc Hne count.
  assert (Hpos : (Z.of_nat (length features) >? 0)%Z = true).
  { apply Z.gtb_lt. lia. }
  unfold spiderFyCluster, leavesCallback.
  rewrite Hsrc. cbn [fst snd]. rewrite Hpos.
  unfold spiderfiedPositions. fold count.
  rewrite Z.gtb_ltb.
  split; intros Hc; destruct (Z.ltb_spec 10 count) as [Hlt|Hge];
    try lia; split; reflexivity.
Qed.
End LayoutFacts.

(** ** The two layouts in real arithmetic *)

Section RealLayout.
Local Open Scope R_scope.

(** Unfolds the operations of [R_JsNumber] to those of [R]. *)
Ltac js_real :=
  cbn [ofZ ofQ add mul div Math_PI Math_cos Math_sin R_JsNumber
       fst snd leavesOffset].

Lemma Q2R_drift : Q2R (5 # 10000) = 5 / 10000.
Proof. reflexivity. Qed.

Lemma circle_pushed_real (count : Z) (i : nat) (s : CircleState) :
  circle_pushed count (Z.of_nat i) s = spec_circle_offset count i.
Proof.
  unfold circle_pushed, spec_circle_offset, spec_theta, spec_radius,
    circle_theta, circle_leavesSeparation.
  js_real. rewrite <- INR_IZR_INZ, !Rplus_0_r.
  rewrite (Rmult_comm (2 * PI / IZR count) (INR i)). reflexivity.
Qed.

Lemma spiral_pushed_real (i : Z) (s : SpiralState) :
  spiral_pushed i s
  = (s_legLength s
     * cos (s_angle s + (40 / s_legLength s + IZR i * (5 / 10000))),
     s_legLength s
     * sin (s_angle s + (40 / s_legLength s + IZR i * (5 / 10000)))).
Proof.
  unfold spiral_pushed, spiral_leavesSeparation. js_real.
  rewrite Q2R_drift, !Rplus_0_r. reflexivity.
Qed.

(** The state of the spiral loop after [i] turns, in the words of the
    specification. *)
Lemma spiral_state_real (i : nat) :
  let s := turns spiral_body i 0 spiral_init in
  s_legLength s = spec_leg i
  /\ s_angle s + (40 / spec_leg i + INR i * (5 / 10000)) = spec_angle i.
Proof.
  induction i as [|i [IHL IHa]].
  - cbn [turns spiral_init s_legLength s_angle].
    unfold spec_leg, spec_angle, legLengthStart. js_real.
    cbn [spec_spiral fst snd]. split; reflexivity.
  - rewrite turns_snoc. rewrite Z.add_0_l.
    set (s := turns spiral_body i 0 spiral_init) in *.
    cbv zeta in IHL, IHa.
    assert (HL : s_legLength (spiral_body (Z.of_nat i) s) = spec_leg (S i)).
    { unfold spiral_body, spiral_leavesSeparation, legLengthFactor.
      cbn [s_legLength]. js_real.
      rewrite Q2R_drift, IHL, <- INR_IZR_INZ, IHa.
      unfold spec_leg at 2. cbn [spec_spiral fst].
      fold (spec_leg i). fold (spec_angle i).
      rewrite (Rmult_comm PI 2). reflexivity. }
    cbv zeta. split; [exact HL|].
    unfold spiral_body at 1, spiral_leavesSeparation.
    cbn [s_angle]. js_real.
    rewrite Q2R_drift, IHL, <- INR_IZR_INZ, IHa.
    unfold spec_angle at 2. cbn [spec_spiral snd].
    fold (spec_leg i). fold (spec_angle i).
    unfold spec_leg at 2. cbn [spec_spiral fst].
    fold (spec_leg i). fold (spec_angle i). reflexivity.
Qed.

Lemma spiral_nth_real (count : Z) (i : nat) :
  (Z.of_nat i < count)%Z ->
  nth_error (calculateSpiderfiedPositions count) i
  = Some (spec_spiral_offset i).
Proof.
  intros Hi. rewrite spiral_nth by assumption.
  rewrite spiral_pushed_real.
  destruct (spiral_state_real i) as [HL Ha]. cbv zeta in HL, Ha.
  rewrite HL, <- INR_IZR_INZ, Ha. reflexivity.
Qed.

(** Leg length and angle stay positive: no division of the spiral loop
    is a division by zero. *)
Lemma spec_spiral_pos (i : nat) : 25 <= spec_leg i /\ 0 < spec_angle i.
Proof.
  unfold spec_leg, spec_angle.
  induction i as [|i [IHL IHa]].
  - cbn [spec_spiral fst snd INR]. split; lra.
  - cbn [spec_spiral fst snd].
    set (L := fst (spec_spiral i)) in *.
    set (a := snd (spec_spiral i)) in *.
    assert (Hg : 0 < 2 * PI * 5 / a).
    { apply Rdiv_lt_0_compat; [|assumption]. pose proof PI_RGT_0. lra. }
    assert (HL : 25 <= L + 2 * PI * 5 / a) by lra.
    split; [exact HL|].
    assert (H40 : 0 < 40 / (L + 2 * PI * 5 / a)).
    { apply Rdiv_lt_0_compat; lra. }
    pose proof (pos_INR (S i)) as Hi.
    assert (0 <= INR (S i) * (5 / 10000)).
    { apply Rmult_le_pos; [assumption | lra]. }
    lra.
Qed.

Lemma spec_leg_grows (i : nat) : spec_leg i < spec_leg (S i).
Proof.
  destruct (spec_spiral_pos i) as [_ Ha].
  unfold spec_leg in *. unfold spec_angle in Ha. cbn [spec_spiral fst].
  assert (Hg : 0 < 2 * PI * 5 / snd (spec_spiral i)).
  { apply Rdiv_lt_0_compat; [|assumption]. pose proof PI_RGT_0. lra. }
  lra.
Qed.

(** A point at angle [a] on the circle of radius [r >= 0] is at distance
    [r] from the anchor. *)
Lemma dist_polar (r a : R) :
  0 <= r -> dist (r * cos a, r * sin a) anchor = r.
Proof.
  intros Hr. unfold dist, anchor. cbn [fst snd].
  replace ((r * cos a - 0) * (r * cos a - 0)
           + (r * sin a - 0) * (r * sin a - 0))
    with (r * r * (Rsqr (sin a) + Rsqr (cos a)))
    by (unfold Rsqr; ring).
  rewrite sin2_cos2, Rmult_1_r. apply sqrt_square. assumption.
Qed.

Lemma dist_zero (p q : R * R) : dist p q = 0 -> p = q.
Proof.
  destruct p as [x1 y1], q as [x2 y2]. unfold dist. cbn [fst snd].
  intros H.
  pose proof (Rle_0_sqr (x1 - x2)) as Hx.
  pose proof (Rle_0_sqr (y1 - y2)) as Hy. unfold Rsqr in Hx, Hy.
  apply sqrt_eq_0 in H; [|lra].
  assert (Hx0 : (x1 - x2) * (x1 - x2) = 0) by lra.
  assert (Hy0 : (y1 - y2) * (y1 - y2) = 0) by lra.
  apply Rsqr_0_uniq in Hx0. apply Rsqr_0_uniq in Hy0.
  f_equal; lra.
Qed.

(** Two angles of one turn with the same cosine and sine are equal. *)
Lemma cos_sin_inj (a b : R) :
  0 <= a < 2 * PI -> 0 <= b < 2 * PI ->
  cos a = cos b -> sin a = sin b -> a = b.
Proof.
  intros Ha Hb Hc Hs.
  set (d := (a - b) / 2).
  assert (Hcos : cos (2 * d) = 1).
  { replace (2 * d) with (a - b) by (unfold d; field).
    rewrite cos_minus, Hc, Hs.
    pose proof (sin2_cos2 b) as H. unfold Rsqr in H. lra. }
  rewrite cos_2a_sin in Hcos.
  assert (Hsin : sin d = 0) by nra.
  destruct (Rtotal_order d 0) as [Hneg|[Hz|Hpos]].
  - assert (0 < sin (- d)) by (apply sin_gt_0; unfold d in *; lra).
    rewrite sin_neg in *. lra.
  - unfold d in Hz. lra.
  - assert (0 < sin d) by (apply sin_gt_0; unfold d in *; lra).
    lra.
Qed.

Lemma spec_theta_range (count : Z) (i : nat) :
  (Z.of_nat i < count)%Z -> 0 <= spec_theta count i < 2 * PI.
Proof.
  intros Hi. unfold spec_theta.
  assert (Hc : 0 < IZR count) by (apply IZR_lt; lia).
  assert (Hi' : INR i < IZR count)
    by (rewrite INR_IZR_INZ; apply IZR_lt; assumption).
  pose proof (pos_INR i) as H0. pose proof PI_RGT_0 as Hpi.
  assert (Ht : 0 < 2 * PI / IZR count)
    by (apply Rdiv_lt_0_compat; lra).
  split.
  - apply Rmult_le_pos; lra.
  - replace (2 * PI) with (IZR count * (2 * PI / IZR count)) at 2
      by (field; lra).
    apply Rmult_lt_compat_r; assumption.
Qed.

Lemma spec_theta_inj (count : Z) (i j : nat) :
  (0 < count)%Z -> spec_theta count i = spec_theta count j -> i = j.
Proof.
  intros Hc H. unfold spec_theta in H.
  assert (Hc' : 0 < IZR count) by (apply IZR_lt; lia).
  pose proof PI_RGT_0 as Hpi.
  assert (Ht : 0 < 2 * PI / IZR count)
    by (apply Rdiv_lt_0_compat; lra).
  apply INR_eq. apply (Rmult_eq_reg_r (2 * PI / IZR count)); lra.
Qed.

Lemma dist_sym (p q : R * R) : dist p q = dist q p.
Proof. unfold dist. f_equal. ring. Qed.

Lemma circle_nth_real (count : Z) (i : nat) :
  (Z.of_nat i < count)%Z ->
  nth_error (calculateSpiderfiedPositionsCircle count) i
  = Some (spec_circle_offset count i).
Proof.
  intros Hi. rewrite circle_nth by assumption.
  rewrite circle_pushed_real. reflexivity.
Qed.

(** C1.  For [count >= 1] and [0 <= i < count], offset [i] of the circular
    layout is [(r cos (i (2 pi / count)), r sin (i (2 pi / count)))] with
    [r = 80]; for [count = 1] the layout is the single offset [(80, 0)]. *)
Theorem circle_offsets (count : Z) (i : nat) :
  (1 <= count)%Z -> (Z.of_nat i < count)%Z ->
  nth_error (calculateSpiderfiedPositionsCircle count) i
  = Some (80 * cos (INR i * (2 * PI / IZR count)),
          80 * sin (INR i * (2 * PI / IZR count)))
  /\ (count = 1%Z ->
      calculateSpiderfiedPositionsCircle count = [(80, 0)]).
Proof.
  intros Hc Hi. split.
  - apply circle_nth_real. assumption.
  - intros ->.
    pose proof (circle_length (num := R) 1) as Hlen.
    pose proof (@circle_nth_real 1 0 ltac:(lia)) as H0.
    destruct (calculateSpiderfiedPositionsCircle 1) as [|p [|q l]];
      try discriminate Hlen.
    cbn [nth_error] in H0. injection H0 as ->.
    unfold spec_circle_offset, spec_theta, spec_radius. cbn [INR].
    rewrite Rmult_0_l, cos_0, sin_0, Rmult_1_r, Rmult_0_r. reflexivity.
Qed.

(** C2.  For [count >= 1], offset [i] of the spiral layout is
    [(L_i cos a_i, L_i sin a_i)]: the angle starts at 0 and before point
    [i] increases by [40 / L_i + i * 0.0005]; the leg length starts at 25
    and after each point grows by [(2 pi 5) / a_i]. *)
Theorem spiral_offsets (count : Z) (i : nat) :
  (1 <= count)%Z -> (Z.of_nat i < count)%Z ->
  nth_error (calculateSpiderfiedPositions count) i
  = Some (spec_leg i * cos (spec_angle i), spec_leg i * sin (spec_angle i))
  /\ spec_leg 0 = 25
  /\ spec_angle 0 = 0 + (40 / spec_leg 0 + INR 0 * (5 / 10000))
  /\ (forall k,
        spec_leg (S k) = spec_leg k + (2 * PI * 5) / spec_angle k
        /\ spec_angle (S k)
           = spec_angle k + (40 / spec_leg (S k) + INR (S k) * (5 / 10000))).
Proof.
  intros Hc Hi. split; [|split; [|split]].
  - apply spiral_nth_real. assumption.
  - reflexivity.
  - reflexivity.
  - intros k. split; reflexivity.
Qed.

(** C3.  For [count > 1] and [0 <= i < count - 1], offset [i + 1] of the
    spiral layout is strictly farther from the anchor than offset [i];
    the two offsets are therefore distinct. *)
Theorem spiral_radius_grows (count : Z) (i : nat) :
  (1 < count)%Z -> (Z.of_nat i < count - 1)%Z ->
  exists p q,
    nth_error (calculateSpiderfiedPositions count) i = Some p
    /\ nth_error (calculateSpiderfiedPositions count) (S i) = Some q
    /\ dist anchor p < dist anchor q
    /\ p <> q.
Proof.
  intros Hc Hi.
  exists (spec_spiral_offset i), (spec_spiral_offset (S i)).
  assert (Hd : dist anchor (spec_spiral_offset i)
               < dist anchor (spec_spiral_offset (S i))).
  { rewrite !(dist_sym anchor). unfold spec_spiral_offset.
    destruct (spec_spiral_pos i) as [Hi0 _].
    destruct (spec_spiral_pos (S i)) as [Hi1 _].
    rewrite !dist_polar by lra. apply spec_leg_grows. }
  split; [apply spiral_nth_real; lia|].
  split; [apply spiral_nth_real; lia|].
  split; [exact Hd|].
  intros Heq. rewrite Heq in Hd. lra.
Qed.

(** C7.  For [count >= 1], every offset of the circular layout is at the
    same distance from the anchor, the radius 80 (exactly so in real
    arithmetic). *)
Theorem circle_radius (count : Z) (i : nat) :
  (1 <= count)%Z -> (Z.of_nat i < count)%Z ->
  exists p,
    nth_error (calculateSpiderfiedPositionsCircle count) i = Some p
    /\ dist anchor p = 80.
Proof.
  intros Hc Hi. exists (spec_circle_offset count i).
  split; [apply circle_nth_real; assumption|].
  rewrite dist_sym. unfold spec_circle_offset, spec_radius.
  apply dist_polar. lra.
Qed.

(** C8.  For [count >= 2] and distinct indices [i], [j] below [count],
    offsets [i] and [j] of the circular layout are at non-zero distance
    from each other, and the two leaves have different angles. *)
Theorem circle_offsets_distinct (count : Z) (i j : nat) :
  (2 <= count)%Z ->
  (Z.of_nat i < count)%Z -> (Z.of_nat j < count)%Z -> i <> j ->
  exists p q,
    nth_error (calculateSpiderfiedPositionsCircle count) i = Some p
    /\ nth_error (calculateSpiderfiedPositionsCircle count) j = Some q
    /\ dist p q <> 0
    /\ INR i * (2 * PI / IZR count) <> INR j * (2 * PI / IZR count).
Proof.
  intros Hc Hi Hj Hij.
  exists (spec_circle_offset count i), (spec_circle_offset count j).
  split; [apply circle_nth_real; assumption|].
  split; [apply circle_nth_real; assumption|].
  assert (Hth : spec_theta count i <> spec_theta count j).
  { intros H. apply Hij. apply (spec_theta_inj (count := count)); [lia|].
    exact H. }
  split; [|exact Hth].
  intros Hd. apply dist_zero in Hd.
  unfold spec_circle_offset, spec_radius in Hd.
  injection Hd as Hx Hy. apply Hth.
  apply cos_sin_inj; try (apply spec_theta_range; assumption); lra.
Qed.

(** The circular layout is not stable under prefixes: its step reads the
    total count. *)
Remark circle_not_prefix_stable :
  firstn 2 (calculateSpiderfiedPositionsCircle (num := R) 3)
  <> calculateSpiderfiedPositionsCircle 2.
Proof.
  intros H.
  assert (H1 : nth_error
                 (firstn 2 (calculateSpiderfiedPositionsCircle (num := R) 3))
                 1
               = nth_error (calculateSpiderfiedPositionsCircle 2) 1)
    by (rewrite H; reflexivity).
  rewrite nth_error_firstn in H1. cbn [Nat.ltb Nat.leb] in H1.
  rewrite !circle_nth_real in H1 by lia.
  injection H1 as Hx Hy. unfold spec_radius in Hx, Hy.
  assert (Heq : spec_theta 3 1 = spec_theta 2 1).
  { apply cos_sin_inj; try (apply spec_theta_range; lia); lra. }
  unfold spec_theta in Heq. cbn [INR] in Heq.
  pose proof PI_RGT_0. lra.
Qed.
End RealLayout.

(** ** The functions run on small inputs *)

Example circle_of_2_symbolic :
  calculateSpiderfiedPositionsCircle (num := JsExpr) 2
  = [ (Add (Mul (Int 80) (Cos (Mul (Div (Mul (Int 2) Pi) (Int 2)) (Int 0))))
           (Int 0),
       Add (Mul (Int 80) (Sin (Mul (Div (Mul (Int 2) Pi) (Int 2)) (Int 0))))
           (Int 0));
      (Add (Mul (Int 80) (Cos (Mul (Div (Mul (Int 2) Pi) (Int 2)) (Int 1))))
           (Int 0),
       Add (Mul (Int 80) (Sin (Mul (Div (Mul (Int 2) Pi) (Int 2)) (Int 1))))
           (Int 0)) ].
Proof. reflexivity. Qed.

Example spiral_of_1_symbolic :
  calculateSpiderfiedPositions (num := JsExpr) 1
  = [ (Add (Mul (Int 25)
                (Cos (Add (Int 0)
                          (Add (Div (Int 40) (Int 25))
                               (Mul (Int 0) (Dec (5 # 10000)))))))
           (Int 0),
       Add (Mul (Int 25)
                (Sin (Add (Int 0)
                          (Add (Div (Int 40) (Int 25))
                               (Mul (Int 0) (Dec (5 # 10000)))))))
           (Int 0)) ].
Proof. reflexivity. Qed.

Example spiral_leg_after_1 :
  s_legLength (for_loop spiral_body 1 (spiral_init (num := JsExpr)))
  = Add (Int 25)
        (Div (Mul (Mul Pi (Int 2)) (Int 5))
             (Add (Int 0)
                  (Add (Div (Int 40) (Int 25))
                       (Mul (Int 0) (Dec (5 # 10000)))))).
Proof. reflexivity. Qed.

Example layouts_of_0 :
  calculateSpiderfiedPositionsCircle (num := JsExpr) 0 = []
  /\ calculateSpiderfiedPositions (num := JsExpr) 0 = []
  /\ calculateSpiderfiedPositionsCircle (num := JsExpr) (-3) = []
  /\ calculateSpiderfiedPositions (num := JsExpr) (-3) = [].
Proof. repeat split; reflexivity. Qed.

Example layouts_lengths_11 :
  length (calculateSpiderfiedPositionsCircle (num := JsExpr) 11) = 11%nat
  /\ length (calculateSpiderfiedPositions (num := JsExpr) 11) = 11%nat.
Proof. split; vm_compute; reflexivity. Qed.

(** With no leaves, or on an error, the callback leaves the map as it is:
    no layout is computed. *)
Example leavesCallback_no_leaves :
  leavesCallback (0%R, 0%R) false (Some (sample_leaves 0)) sample_map
  = sample_map
  /\ leavesCallback (0%R, 0%R) false None sample_map = sample_map
  /\ leavesCallback (0%R, 0%R) true (Some (sample_leaves 3)) sample_map
     = sample_map
  /\ spiderFyCluster (Some sample_map) (sample_source 0) 7 (0%R, 0%R)
     = Some sample_map
  /\ spiderFyCluster None (sample_source 5) 7 (0%R, 0%R) = None.
Proof. repeat split; reflexivity. Qed.

(** ** Instances of the theorems *)

Lemma circle_offsets_witness :
  (1 <= 4)%Z /\ (Z.of_nat 1 < 4)%Z
  /\ nth_error (calculateSpiderfiedPositionsCircle 4) 1
     = Some ((80 * cos (INR 1 * (2 * PI / IZR 4)))%R,
             (80 * sin (INR 1 * (2 * PI / IZR 4)))%R).
Proof.
  split; [lia|]. split; [lia|].
  apply (@circle_offsets 4 1); lia.
Defined.

Lemma spiral_offsets_witness :
  (1 <= 12)%Z /\ (Z.of_nat 3 < 12)%Z
  /\ nth_error (calculateSpiderfiedPositions 12) 3
     = Some ((spec_leg 3 * cos (spec_angle 3))%R,
             (spec_leg 3 * sin (spec_angle 3))%R).
Proof.
  split; [lia|]. split; [lia|].
  apply (@spiral_offsets 12 3); lia.
Defined.

Lemma spiral_radius_grows_witness :
  (1 < 12)%Z /\ (Z.of_nat 10 < 12 - 1)%Z
  /\ exists p q,
       nth_error (calculateSpiderfiedPositions 12) 10 = Some p
       /\ nth_error (calculateSpiderfiedPositions 12) 11 = Some q
       /\ (dist anchor p < dist anchor q)%R
       /\ p <> q.
Proof.
  split; [lia|]. split; [lia|].
  apply (@spiral_radius_grows 12 10); lia.
Defined.

Lemma layouts_length_witness :
  (1 <= 3)%Z
  /\ Z.of_nat (length (calculateSpiderfiedPositionsCircle (num := R) 3)) = 3%Z
  /\ Z.of_nat (length (calculateSpiderfiedPositions (num := R) 3)) = 3%Z.
Proof.
  split; [lia|]. apply (@layouts_length R _ 3). lia.
Defined.

Lemma spiderFyCluster_layout_choice_witness :
  sample_source 5 7%Z = (false, Some (sample_leaves 5))
  /\ (0 < length (sample_leaves 5))%nat
  /\ spiderFyCluster (Some sample_map) (sample_source 5) 7 (0%R, 0%R)
     = Some (mkMap (spiderLeaves (calculateSpiderfiedPositionsCircle 5)
                                 (0%R, 0%R) 0 (sample_leaves 5))
                   (Q2R (6 # 10)) (Q2R (5 # 10)))
  /\ spiderFyCluster (Some sample_map) (sample_source 10) 7 (0%R, 0%R)
     = Some (mkMap (spiderLeaves (calculateSpiderfiedPositionsCircle 10)
                                 (0%R, 0%R) 0 (sample_leaves 10))
                   (Q2R (6 # 10)) (Q2R (5 # 10)))
  /\ spiderFyCluster (Some sample_map) (sample_source 15) 7 (0%R, 0%R)
     = Some (mkMap (spiderLeaves (calculateSpiderfiedPositions 15)
                                 (0%R, 0%R) 0 (sample_leaves 15))
                   (Q2R (6 # 10)) (Q2R (5 # 10))).
Proof.
  split; [reflexivity|]. split; [cbn; lia|]. split; [|split].
  - apply (proj1 (@spiderFyCluster_layout_choice R _ unit sample_map
                    (sample_source 5) 7 (0%R, 0%R) (sample_leaves 5)
                    eq_refl ltac:(cbn; lia)));
      cbn; lia.
  - apply (proj1 (@spiderFyCluster_layout_choice R _ unit sample_map
                    (sample_source 10) 7 (0%R, 0%R) (sample_leaves 10)
                    eq_refl ltac:(cbn; lia)));
      cbn; lia.
  - apply (proj2 (@spiderFyCluster_layout_choice R _ unit sample_map
                    (sample_source 15) 7 (0%R, 0%R) (sample_leaves 15)
                    eq_refl ltac:(cbn; lia)));
      cbn; lia.
Defined.

Lemma layouts_empty_witness :
  (-2 < 1)%Z
  /\ calculateSpiderfiedPositionsCircle (num := R) (-2) = []
  /\ calculateSpiderfiedPositions (num := R) (-2) = [].
Proof.
  split; [lia|].
  pose proof (@layouts_empty R _ (-2) ltac:(lia)) as [[Hc _] [Hs _]].
  split; assumption.
Defined.

Lemma circle_radius_witness :
  (1 <= 7)%Z /\ (Z.of_nat 5 < 7)%Z
  /\ exists p,
       nth_error (calculateSpiderfiedPositionsCircle 7) 5 = Some p
       /\ dist anchor p = 80%R.
Proof.
  split; [lia|]. split; [lia|].
  apply (@circle_radius 7 5); lia.
Defined.

Lemma circle_offsets_distinct_witness :
  (2 <= 10)%Z /\ (Z.of_nat 0 < 10)%Z /\ (Z.of_nat 5 < 10)%Z /\ 0%nat <> 5%nat
  /\ exists p q,
       nth_error (calculateSpiderfiedPositionsCircle 10) 0 = Some p
       /\ nth_error (calculateSpiderfiedPositionsCircle 10) 5 = Some q
       /\ dist p q <> 0%R
       /\ (INR 0 * (2 * PI / IZR 10) <> INR 5 * (2 * PI / IZR 10))%R.
Proof.
  split; [lia|]. split; [lia|]. split; [lia|]. split; [lia|].
  apply (@circle_offsets_distinct 10 0 5); lia.
Defined.

Lemma spiral_prefix_stable_witness :
  (0 <= 2 <= 5)%Z
  /\ firstn (Z.to_nat 2) (calculateSpiderfiedPositions (num := R) 5)
     = calculateSpiderfiedPositions 2.
Proof.
  split; [lia|]. apply (@spiral_prefix_stable R _ 2 5). lia.
Defined.

(** ** The spiderfied features *)

Section SpiderLeaves.
Context {num : Type} {JN : JsNumber num}.
Variable Props : Type.

Lemma spiderLeaves_length (positions : list (@Offset num))
      (lngLat : num * num) (features : list (Leaf Props)) :
  forall index,
    length (spiderLeaves positions lngLat index features) = length features.
Proof.
  induction features as [|feature rest IH]; intros index; cbn.
  - reflexivity.
  - rewrite IH. reflexivity.
Qed.

Lemma spiderLeaves_nth (positions : list (@Offset num))
      (lngLat : num * num) (features : list (Leaf Props)) :
  forall index k leaf,
    nth_error features k = Some leaf ->
    nth_error (spiderLeaves positions lngLat index features) k
    = Some (mkSpiderLeaf (leaf_properties leaf)
                         (nth_error positions (index + k)) lngLat).
Proof.
  induction features as [|feature rest IH]; intros index k leaf Hk.
  - destruct k; discriminate Hk.
  - destruct k as [|k]; cbn in Hk |- *.
    + injection Hk as ->. rewrite Nat.add_0_r. reflexivity.
    + rewrite (IH (S index) k leaf Hk).
      replace (S index + k)%nat with (index + S k)%nat by lia.
      reflexivity.
Qed.

Lemma spiderLeaves_coordinates (positions : list (@Offset num))
      (lngLat : num * num) (features : list (Leaf Props)) :
  forall index,
    Forall (fun l => sl_coordinates l = lngLat)
           (spiderLeaves positions lngLat index features).
Proof.
  induction features as [|feature rest IH]; intros index; cbn.
  - constructor.
  - constructor; [reflexivity | apply IH].
Qed.

Lemma spiderfiedPositions_length (features : list (Leaf Props)) :
  length (spiderfiedPositions features) = length features.
Proof.
  unfold spiderfiedPositions.
  destruct (Z.of_nat (length features) >? 10)%Z.
  - rewrite spiral_length. apply Nat2Z.id.
  - rewrite circle_length. apply Nat2Z.id.
Qed.

Lemma spiderLeaves_offsets (lngLat : num * num)
      (features : list (Leaf Props)) :
  Forall (fun l => sl_iconOffset l <> None)
         (spiderLeaves (spiderfiedPositions features) lngLat 0 features).
Proof.
  apply Forall_forall. intros l Hin.
  apply In_nth_error in Hin. destruct Hin as [k Hk].
  assert (Hlt : (k < length features)%nat).
  { rewrite <- (spiderLeaves_length (spiderfiedPositions features)
                                    lngLat features 0).
    apply nth_error_Some. congruence. }
  destruct (nth_error features k) as [leaf|] eqn:Hleaf.
  - rewrite (spiderLeaves_nth _ _ _ 0 _ Hleaf) in Hk.
    injection Hk as <-. cbn [sl_iconOffset Nat.add].
    apply nth_error_Some. rewrite spiderfiedPositions_length. exact Hlt.
  - apply nth_error_None in Hleaf. lia.
Qed.

(** X1.  The features written to the source [spiderfy] are aligned with
    the leaves: as many, and feature [k] carries the properties of leaf
    [k], the clicked coordinates, and as [iconOffset] entry [k] of the
    chosen layout, which exists. *)
Theorem spiderLeaves_aligned (lngLat : num * num)
        (features : list (Leaf Props)) :
  length (spiderLeaves (spiderfiedPositions features) lngLat 0 features)
  = length features
  /\ forall k leaf,
       nth_error features k = Some leaf ->
       exists p,
         nth_error (spiderfiedPositions features) k = Some p
         /\ nth_error
              (spiderLeaves (spiderfiedPositions features) lngLat 0 features)
              k
            = Some (mkSpiderLeaf (leaf_properties leaf) (Some p) lngLat).
Proof.
  split; [apply spiderLeaves_length|].
  intros k leaf Hk.
  assert (Hlt : (k < length (spiderfiedPositions features))%nat).
  { rewrite spiderfiedPositions_length. apply nth_error_Some. congruence. }
  destruct (nth_error (spiderfiedPositions features) k) as [p|] eqn:Hp.
  - exists p. split; [reflexivity|].
    rewrite (spiderLeaves_nth _ _ _ 0 _ Hk). cbn [Nat.add].
    rewrite Hp. reflexivity.
  - apply nth_error_None in Hp. lia.
Qed.
End SpiderLeaves.

(** ** The handlers *)

Section HandlerFacts.
Context {num : Type} {JN : JsNumber num}.
Variable Props : Type.

(** The two looks of the map: nothing spiderfied and full opacity, or some
    leaves spread out over dimmed clusters. *)
Let plain (m : @MapState num Props) : Prop :=
  spiderfyData m = []
  /\ clustersOpacity m = ofZ 1
  /\ unclusteredOpacity m = ofZ 1.

Let spread (m : @MapState num Props) : Prop :=
  spiderfyData m <> []
  /\ clustersOpacity m = ofQ (6 # 10)
  /\ unclusteredOpacity m = ofQ (5 # 10)
  /\ Forall (fun l => sl_iconOffset l <> None) (spiderfyData m)
  /\ exists lngLat,
       Forall (fun l => sl_coordinates l = lngLat) (spiderfyData m).

Let looks_ok (app : @App num Props) : Prop :=
  forall m, app_style app = Some m -> plain m \/ spread m.

Lemma leavesCallback_looks (lngLat : num * num) (error : bool)
      (features : option (list (Leaf Props))) (m : MapState Props) :
  plain m \/ spread m ->
  plain (leavesCallback lngLat error features m)
  \/ spread (leavesCallback lngLat error features m).
Proof.
  intros Hm. unfold leavesCallback.
  destruct error; [exact Hm|].
  destruct features as [features|]; [|exact Hm].
  destruct (Z.gtb_spec (Z.of_nat (length features)) 0) as [Hpos|_];
    [|exact Hm].
  right. unfold spread. cbn [spiderfyData clustersOpacity unclusteredOpacity].
  split; [|split; [reflexivity|split; [reflexivity|split]]].
  - intros Hnil.
    pose proof (spiderLeaves_length (spiderfiedPositions features)
                                    lngLat features 0) as Hlen.
    rewrite Hnil in Hlen. cbn in Hlen. lia.
  - apply spiderLeaves_offsets.
  - exists lngLat. apply spiderLeaves_coordinates.
Qed.

Lemma handle_looks (e : Event Props) (app : App Props) :
  looks_ok app -> looks_ok (fst (handle e app)).
Proof.
  intros Hok. destruct e as [loadImage|rendered source lngLat|type| |];
    cbn [handle fst].
  - unfold onLoad.
    destruct (app_style app) as [m0|] eqn:Hstyle; [exact Hok|].
    intros m Hm. cbn in Hm. injection Hm as <-.
    left. repeat split; reflexivity.
  - unfold centerMapToCluster.
    destruct rendered as [|[clusterId|] rest]; [exact Hok| |exact Hok].
    destruct (app_style app) as [m0|] eqn:Hstyle; [|exact Hok].
    unfold expansionCallback.
    destruct (fst (expansionZoom source clusterId)); [exact Hok|].
    destruct (snd (expansionZoom source clusterId)) as [zoom|];
      [|exact Hok].
    destruct (Qeq_bool zoom 0); [exact Hok|].
    destruct (Qltb clusterMaxZoom zoom); [|exact Hok].
    cbn [fst]. intros m Hm. cbn [app_style] in Hm.
    rewrite Hstyle in Hm. cbn [spiderFyCluster] in Hm.
    injection Hm as <-. apply leavesCallback_looks.
    apply Hok. exact Hstyle.
  - intros m Hm. apply Hok. exact Hm.
  - unfold deletePointsSpiderfy.
    destruct (app_style app) as [m0|] eqn:Hstyle; [|exact Hok].
    intros m Hm. cbn in Hm. injection Hm as <-.
    left. repeat split; reflexivity.
  - unfold deletePointsSpiderfy.
    destruct (app_style app) as [m0|] eqn:Hstyle; [|exact Hok].
    intros m Hm. cbn in Hm. injection Hm as <-.
    left. repeat split; reflexivity.
Qed.

Lemma run_looks (events : list (Event Props)) :
  forall app, looks_ok app -> looks_ok (run events app).
Proof.
  induction events as [|e events IH]; intros app Hok; [exact Hok|].
  cbn [run fold_left]. apply IH. apply handle_looks. exact Hok.
Qed.

(** X2.  Whatever events arrive, in whatever order, the clusters are
    dimmed exactly while leaves are spread out: the style shows either no
    spiderfied feature and opacities 1, or some features and opacities 0.6
    and 0.5, and then every feature has an [iconOffset] and all sit at one
    coordinate. *)
Theorem run_dimmed_while_spread (events : list (Event Props))
        (m : MapState Props) :
  app_style (run events (initialApp Props)) = Some m ->
  (spiderfyData m = []
   /\ clustersOpacity m = ofZ 1
   /\ unclusteredOpacity m = ofZ 1)
  \/ (spiderfyData m <> []
      /\ clustersOpacity m = ofQ (6 # 10)
      /\ unclusteredOpacity m = ofQ (5 # 10)
      /\ Forall (fun l => sl_iconOffset l <> None) (spiderfyData m)
      /\ exists lngLat,
           Forall (fun l => sl_coordinates l = lngLat) (spiderfyData m)).
Proof.
  intros Hm.
  assert (Hinit : looks_ok (initialApp Props)).
  { intros m0 H0. discriminate H0. }
  apply (run_looks events Hinit). exact Hm.
Qed.

(** X3.  A click on the clusters does one of three things, and which one
    is decided as follows.  It does nothing when no cluster is rendered at
    the point, when the first one has no properties, when the source
    [earthquakes] is missing, when the expansion zoom comes with an error,
    or when it is absent or 0.  Otherwise, with an expansion zoom of at
    most [clusterMaxZoom], it eases to the clicked point at that zoom and
    leaves the application as it is; with one above [clusterMaxZoom] it
    spiderfies the clicked cluster and eases to the clicked point without
    a zoom. *)
Theorem centerMapToCluster_cases (rendered : list (option Z))
        (source : ClusterSource Props) (lngLat : num * num)
        (app : App Props) :
  ((hd_error rendered = None
    \/ hd_error rendered = Some None
    \/ app_style app = None
    \/ (exists clusterId,
          hd_error rendered = Some (Some clusterId)
          /\ (fst (expansionZoom source clusterId) = true
              \/ snd (expansionZoom source clusterId) = None
              \/ exists zoom,
                   snd (expansionZoom source clusterId) = Some zoom
                   /\ (zoom == 0)%Q))) ->
   centerMapToCluster rendered source lngLat app = (app, None))
  /\ (forall clusterId zoom,
        hd_error rendered = Some (Some clusterId) ->
        app_style app <> None ->
        expansionZoom source clusterId = (false, Some zoom) ->
        ~ (zoom == 0)%Q ->
        ((zoom <= clusterMaxZoom)%Q ->
         centerMapToCluster rendered source lngLat app
         = (app, Some (mkEaseTo lngLat (Some zoom))))
        /\ ((clusterMaxZoom < zoom)%Q ->
            centerMapToCluster rendered source lngLat app
            = (mkApp (spiderFyCluster (app_style app)
                                      (clusterLeaves source)
                                      clusterId lngLat)
                     (app_images app) (app_cursor app),
               Some (mkEaseTo lngLat None)))).
Proof.
  split.
  - unfold centerMapToCluster.
    destruct rendered as [|[clusterId|] rest]; try reflexivity.
    destruct (app_style app) as [m0|] eqn:Hstyle; [|reflexivity].
    cbn [hd_error].
    intros [H|[H|[H|[id [Hid H]]]]]; try discriminate H.
    injection Hid as <-. unfold expansionCallback.
    destruct H as [H|[H|[zoom [H H0]]]]; rewrite H; try reflexivity.
    + destruct (fst (expansionZoom source clusterId)); reflexivity.
    + destruct (fst (expansionZoom source clusterId)); [reflexivity|].
      apply Qeq_bool_iff in H0. rewrite H0. reflexivity.
  - intros clusterId zoom Hhd Hstyle Hz Hnz.
    unfold centerMapToCluster.
    destruct rendered as [|[id|] rest]; try discriminate Hhd.
    cbn [hd_error] in Hhd. injection Hhd as ->.
    destruct (app_style app) as [m0|] eqn:Hm0; [|congruence].
    rewrite Hz. cbn [fst snd]. unfold expansionCallback.
    assert (Hz0 : Qeq_bool zoom 0 = false).
    { destruct (Qeq_bool zoom 0) eqn:E; [|reflexivity].
      apply Qeq_bool_iff in E. contradiction. }
    rewrite Hz0. unfold Qltb. split; intros Hcmp.
    + apply Qle_bool_iff in Hcmp. rewrite Hcmp. reflexivity.
    + assert (Hle : Qle_bool zoom clusterMaxZoom = false).
      { destruct (Qle_bool zoom clusterMaxZoom) eqn:E; [|reflexivity].
        apply Qle_bool_iff in E. exfalso. exact (Qlt_not_le _ _ Hcmp E). }
      rewrite Hle. cbn [negb]. rewrite Hm0. reflexivity.
Qed.
End HandlerFacts.

(** ** The style expressions *)

Section StyleFacts.
Import String.
Local Open Scope string_scope.

Lemma Qltb_lt (x y : Q) : Qltb x y = true <-> (x < y)%Q.
Proof.
  unfold Qltb. rewrite Bool.negb_true_iff. split.
  - intros H. apply Qnot_le_lt. intros Hle.
    apply Qle_bool_iff in Hle. congruence.
  - intros H. destruct (Qle_bool y x) eqn:Hle; [|reflexivity].
    apply Qle_bool_iff in Hle. exfalso. exact (Qlt_not_le _ _ H Hle).
Qed.

Lemma Qltb_ge (x y : Q) : Qltb x y = false <-> (y <= x)%Q.
Proof.
  unfold Qltb. rewrite Bool.negb_false_iff. apply Qle_bool_iff.
Qed.

Lemma Qfloor_between (k : Z) (x : Q) :
  (inject_Z k <= x)%Q -> (x < inject_Z (k + 1))%Q -> Qround.Qfloor x = k.
Proof.
  intros Hlo Hhi.
  assert (H1 : (k <= Qround.Qfloor x)%Z).
  { rewrite <- (Qround.Qfloor_Z k). apply Qround.Qfloor_resp_le. exact Hlo. }
  assert (H2 : (Qround.Qfloor x < k + 1)%Z).
  { rewrite Zlt_Qlt.
    eapply Qle_lt_trans; [apply Qround.Qfloor_le|exact Hhi]. }
  lia.
Qed.

(** Runs the comparisons of [iconImage] and names the interval [mag] is
    in. *)
Ltac icon_cases mag :=
  unfold iconImage;
  destruct (Qltb mag 2) eqn:H2;
  [|destruct (Qltb mag 3) eqn:H3;
    [|destruct (Qltb mag 4) eqn:H4;
      [|destruct (Qltb mag 5) eqn:H5;
        [|destruct (Qltb mag 6) eqn:H6;
          [|destruct (Qltb mag 7) eqn:H7;
            [|destruct (Qltb mag 8) eqn:H8]]]]]];
  repeat match goal with
         | H : Qltb _ _ = true |- _ => apply Qltb_lt in H
         | H : Qltb _ _ = false |- _ => apply Qltb_ge in H
         end.

(** X4.  The icon of a point is numbered by the integer part of its
    magnitude, and by 1 below magnitude 2; from magnitude 8 on it is icon
    0. *)
Theorem iconImage_floor (mag : Q) :
  ((mag < 8)%Q ->
   iconImage mag = iconId (Z.to_nat (Z.max 1 (Qround.Qfloor mag))))
  /\ ((8 <= mag)%Q -> iconImage mag = "0-icon").
Proof.
  split.
  - intros Hlt. icon_cases mag.
    + assert (Hf : (Qround.Qfloor mag < 2)%Z).
      { rewrite Zlt_Qlt.
        eapply Qle_lt_trans; [apply Qround.Qfloor_le|exact H2]. }
      replace (Z.max 1 (Qround.Qfloor mag)) with 1%Z by lia. reflexivity.
    + rewrite (@Qfloor_between 2 mag H2 H3). reflexivity.
    + rewrite (@Qfloor_between 3 mag H3 H4). reflexivity.
    + rewrite (@Qfloor_between 4 mag H4 H5). reflexivity.
    + rewrite (@Qfloor_between 5 mag H5 H6). reflexivity.
    + rewrite (@Qfloor_between 6 mag H6 H7). reflexivity.
    + rewrite (@Qfloor_between 7 mag H7 H8). reflexivity.
    + exfalso. exact (Qlt_not_le _ _ Hlt H8).
  - intros Hge. icon_cases mag; try reflexivity; exfalso.
    + apply (Qlt_not_le _ _ H2). eapply Qle_trans; [|exact Hge]. discriminate.
    + apply (Qlt_not_le _ _ H3). eapply Qle_trans; [|exact Hge]. discriminate.
    + apply (Qlt_not_le _ _ H4). eapply Qle_trans; [|exact Hge]. discriminate.
    + apply (Qlt_not_le _ _ H5). eapply Qle_trans; [|exact Hge]. discriminate.
    + apply (Qlt_not_le _ _ H6). eapply Qle_trans; [|exact Hge]. discriminate.
    + apply (Qlt_not_le _ _ H7). eapply Qle_trans; [|exact Hge]. discriminate.
    + exact (Qlt_not_le _ _ H8 Hge).
Qed.

Lemma addIconImage_fold_In (loadImage : string -> LoadResult) (id : string)
      (indices : list nat) :
  forall images,
    In id (fold_left (addIconImage loadImage) indices images)
    <-> In id images
        \/ exists n, In n indices /\ id = iconId n
                     /\ loadImage (imageURL n) = Image.
Proof.
  induction indices as [|n indices IH]; intros images; cbn [fold_left].
  - split; [intros H; left; exact H|].
    intros [H|[n [[] _]]]. exact H.
  - rewrite IH. unfold addIconImage at 1. split.
    + intros [H|[k [Hk [Hid Hload]]]].
      * destruct (loadImage (imageURL n)) eqn:Hn;
          try (left; exact H).
        apply in_app_or in H. destruct H as [H|[H|[]]];
          [left; exact H|].
        right. exists n. split; [left; reflexivity|].
        split; [symmetry; exact H | exact Hn].
      * right. exists k. split; [right; exact Hk|]. split; assumption.
    + intros [H|[k [[Hk|Hk] [Hid Hload]]]].
      * left. destruct (loadImage (imageURL n));
          try exact H. apply in_or_app. left. exact H.
      * subst k. left. rewrite Hload. apply in_or_app. right.
        left. symmetry. exact Hid.
      * right. exists k. split; [exact Hk|]. split; assumption.
Qed.

Lemma iconId_7_fresh (n : nat) : In n (seq 0 7) -> "7-icon" <> iconId n.
Proof.
  cbn. intros [<-|[<-|[<-|[<-|[<-|[<-|[<-|[]]]]]]]]; discriminate.
Qed.

(** X5.  [addIconImages] never adds the image ["7-icon"], which is the
    icon of the magnitudes from 7 up to 8: whatever the loads give, the
    icon of such a point is missing from the style.  When the seven loads
    succeed, the icon of every other magnitude is there. *)
Theorem iconImage_loaded (loadImage : string -> LoadResult) (mag : Q) :
  ((7 <= mag)%Q /\ (mag < 8)%Q ->
   ~ In (iconImage mag) (addIconImages loadImage []))
  /\ ((forall numberColor, (numberColor < 7)%nat ->
                           loadImage (imageURL numberColor) = Image) ->
      ~ ((7 <= mag)%Q /\ (mag < 8)%Q) ->
      In (iconImage mag) (addIconImages loadImage [])).
Proof.
  unfold addIconImages. split.
  - intros [Hlo Hhi] Hin.
    apply addIconImage_fold_In in Hin.
    destruct Hin as [[]|[n [Hn [Hid _]]]].
    revert Hid. icon_cases mag; intros Hid;
      try (exfalso; eapply Qlt_not_le; [eassumption|];
           eapply Qle_trans; [|exact Hlo]; discriminate).
    + exact (iconId_7_fresh Hn Hid).
    + exact (Qlt_not_le _ _ Hhi H8).
  - intros Hload Hout. apply addIconImage_fold_In. right.
    assert (Hsome : forall n, (n < 7)%nat -> iconImage mag = iconId n ->
                    exists k, In k (seq 0 7) /\ iconImage mag = iconId k
                              /\ loadImage (imageURL k) = Image).
    { intros n Hn Hid. exists n. split; [apply in_seq; lia|].
      split; [exact Hid | apply Hload; exact Hn]. }
    revert Hsome. icon_cases mag; intros Hsome.
    + apply (Hsome 1%nat); [lia|reflexivity].
    + apply (Hsome 2%nat); [lia|reflexivity].
    + apply (Hsome 3%nat); [lia|reflexivity].
    + apply (Hsome 4%nat); [lia|reflexivity].
    + apply (Hsome 5%nat); [lia|reflexivity].
    + apply (Hsome 6%nat); [lia|reflexivity].
    + exfalso. apply Hout. split; assumption.
    + apply (Hsome 0%nat); [lia|reflexivity].
Qed.

(** X6.  A cluster with more points is never drawn smaller, and the colour
    and the radius of the cluster circles change together. *)
Theorem circle_style_classes (a b : Z) :
  ((a <= b)%Z -> (circleRadius a <= circleRadius b)%Z)
  /\ (circleColor a = circleColor b <-> circleRadius a = circleRadius b).
Proof.
  unfold circleRadius, circleColor.
  destruct (Z.ltb_spec a 100), (Z.ltb_spec a 750),
    (Z.ltb_spec b 100), (Z.ltb_spec b 750);
    try lia; (split; [intros; lia|]); split; intros Heq;
    try reflexivity; try discriminate Heq.
Qed.
End StyleFacts.

(** ** More on the spiral, in real arithmetic *)

Section SpiralFacts.
Local Open Scope R_scope.

Lemma for_loop_succ {St : Type} (body : Z -> St -> St) (n : nat) (s : St) :
  for_loop body (Z.of_nat n + 1) s
  = body (Z.of_nat n) (for_loop body (Z.of_nat n) s).
Proof.
  rewrite !for_loop_turns.
  replace (Z.to_nat (Z.of_nat n + 1)) with (S n) by lia.
  rewrite Nat2Z.id, turns_snoc. reflexivity.
Qed.

Lemma spec_angle_step (i : nat) :
  spec_angle (S i)
  = spec_angle i + (40 / spec_leg (S i) + INR (S i) * (5 / 10000)).
Proof. reflexivity. Qed.

Lemma spec_leg_step (i : nat) :
  spec_leg (S i) = spec_leg i + (2 * PI * 5) / spec_angle i.
Proof. reflexivity. Qed.

Lemma spec_angle_low (i : nat) : 8 / 5 <= spec_angle i.
Proof.
  induction i as [|i IH].
  - unfold spec_angle. cbn [spec_spiral snd INR]. lra.
  - rewrite spec_angle_step.
    destruct (spec_spiral_pos (S i)) as [HL _].
    assert (0 < 40 / spec_leg (S i)) by (apply Rdiv_lt_0_compat; lra).
    assert (0 <= INR (S i) * (5 / 10000))
      by (apply Rmult_le_pos; [apply pos_INR | lra]).
    lra.
Qed.

Lemma spec_leg_high (i : nat) : spec_leg i <= 25 * (INR i + 1).
Proof.
  induction i as [|i IH].
  - unfold spec_leg. cbn [spec_spiral fst INR]. lra.
  - rewrite spec_leg_step, S_INR.
    pose proof (spec_angle_low i) as Ha. pose proof PI_4 as Hpi.
    pose proof PI_RGT_0 as Hpi0.
    assert (Hq : 2 * PI * 5 / spec_angle i <= 25).
    { apply (Rmult_le_reg_r (spec_angle i)); [lra|].
      unfold Rdiv. rewrite Rmult_assoc, Rinv_l by lra. nra. }
    lra.
Qed.

Lemma spec_leg_sorted (i j : nat) :
  (i < j)%nat -> spec_leg i < spec_leg j.
Proof.
  induction 1 as [|j _ IH].
  - apply spec_leg_grows.
  - eapply Rlt_trans; [exact IH | apply spec_leg_grows].
Qed.

Lemma spec_spiral_offset_dist (i : nat) :
  dist anchor (spec_spiral_offset i) = spec_leg i.
Proof.
  rewrite dist_sym. unfold spec_spiral_offset.
  apply dist_polar. destruct (spec_spiral_pos i). lra.
Qed.

Lemma spec_spiral_offset_inj (i j : nat) :
  spec_spiral_offset i = spec_spiral_offset j -> i = j.
Proof.
  intros H.
  assert (Hd : spec_leg i = spec_leg j)
    by (rewrite <- !spec_spiral_offset_dist, H; reflexivity).
  destruct (Nat.lt_trichotomy i j) as [Hlt|[Heq|Hgt]]; [|exact Heq|].
  - pose proof (spec_leg_sorted Hlt). lra.
  - pose proof (spec_leg_sorted Hgt). lra.
Qed.

(** X7.  Neither division of the spiral loop is ever by zero, and the
    spiral never turns back: in the state [s] in which turn [n] starts the
    leg length is at least 25, and the angle the turn computes is above
    the previous one and at least 1.6. *)
Theorem spiral_divisors (n : nat) :
  let s := for_loop spiral_body (Z.of_nat n) spiral_init in
  for_loop spiral_body (Z.of_nat n + 1) spiral_init
  = spiral_body (Z.of_nat n) s
  /\ 25 <= s_legLength s
  /\ s_angle s < s_angle (spiral_body (Z.of_nat n) s)
  /\ 8 / 5 <= s_angle (spiral_body (Z.of_nat n) s).
Proof.
  cbv zeta. split; [apply for_loop_succ|].
  rewrite for_loop_turns, Nat2Z.id.
  destruct (spiral_state_real n) as [HL Ha]. cbv zeta in HL, Ha.
  set (s := turns spiral_body n 0 spiral_init) in *.
  assert (Hnew : s_angle (spiral_body (Z.of_nat n) s) = spec_angle n).
  { unfold spiral_body, spiral_leavesSeparation. cbn [s_angle].
    cbn [ofZ ofQ add mul div R_JsNumber].
    rewrite Q2R_drift, HL, <- INR_IZR_INZ. exact Ha. }
  rewrite Hnew, HL.
  destruct (spec_spiral_pos n) as [HL25 _].
  split; [exact HL25|]. split; [|apply spec_angle_low].
  rewrite <- Ha.
  assert (0 < 40 / spec_leg n) by (apply Rdiv_lt_0_compat; lra).
  assert (0 <= INR n * (5 / 10000))
    by (apply Rmult_le_pos; [apply pos_INR | lra]).
  lra.
Qed.

(** X8.  The first offset of the spiral is at distance 25 from the
    anchor, and offset [i] at a distance between 25 and [25 (i + 1)]. *)
Theorem spiral_distance_bounds (count : Z) (i : nat) :
  (Z.of_nat i < count)%Z ->
  exists p,
    nth_error (calculateSpiderfiedPositions count) i = Some p
    /\ 25 <= dist anchor p <= 25 * (INR i + 1)
    /\ (i = 0%nat -> dist anchor p = 25).
Proof.
  intros Hi. exists (spec_spiral_offset i).
  split; [apply spiral_nth_real; exact Hi|].
  rewrite spec_spiral_offset_dist.
  destruct (spec_spiral_pos i) as [Hlow _].
  split; [split; [exact Hlow | apply spec_leg_high]|].
  intros ->. reflexivity.
Qed.
End SpiralFacts.

(** ** More on the circle, in real arithmetic *)

Section CircleFacts.
Local Open Scope R_scope.

Lemma spec_circle_offset_inj (count : Z) (i j : nat) :
  (Z.of_nat i < count)%Z -> (Z.of_nat j < count)%Z ->
  spec_circle_offset count i = spec_circle_offset count j -> i = j.
Proof.
  intros Hi Hj H. unfold spec_circle_offset, spec_radius in H.
  injection H as Hx Hy.
  apply (spec_theta_inj (count := count)); [lia|].
  apply cos_sin_inj; try (apply spec_theta_range; assumption); lra.
Qed.

Lemma NoDup_by_index {A : Type} (l : list A) (f : nat -> A) :
  (forall i, (i < length l)%nat -> nth_error l i = Some (f i)) ->
  (forall i j, (i < length l)%nat -> (j < length l)%nat ->
               f i = f j -> i = j) ->
  NoDup l.
Proof.
  intros Hnth Hinj. apply NoDup_nth_error. intros i j Hi Heq.
  destruct (Nat.lt_ge_cases j (length l)) as [Hj|Hj].
  - rewrite (Hnth i Hi), (Hnth j Hj) in Heq. injection Heq as Heq.
    apply Hinj; assumption.
  - rewrite (Hnth i Hi) in Heq.
    apply nth_error_None in Hj. congruence.
Qed.

(** X9.  No two offsets of a layout are equal, whatever the count: two
    leaves of a spiderfied cluster are never drawn on the same spot. *)
Theorem layouts_NoDup (count : Z) :
  NoDup (calculateSpiderfiedPositionsCircle (num := R) count)
  /\ NoDup (calculateSpiderfiedPositions (num := R) count).
Proof.
  split.
  - pose proof (circle_length (num := R) count) as Hlen.
    unfold Offset in Hlen.
    apply NoDup_by_index with (f := spec_circle_offset count).
    + intros i Hi. rewrite Hlen in Hi.
      apply circle_nth_real. lia.
    + intros i j Hi Hj. rewrite Hlen in Hi, Hj.
      apply spec_circle_offset_inj; lia.
  - pose proof (spiral_length (num := R) count) as Hlen.
    unfold Offset in Hlen.
    apply NoDup_by_index with (f := spec_spiral_offset).
    + intros i Hi. rewrite Hlen in Hi.
      apply spiral_nth_real. lia.
    + intros i j _ _. apply spec_spiral_offset_inj.
Qed.

(** The chord between two points of a circle of radius [r]. *)
Lemma dist_chord (r a b : R) :
  0 <= r ->
  dist (r * cos a, r * sin a) (r * cos b, r * sin b)
  = 2 * r * Rabs (sin ((a - b) / 2)).
Proof.
  intros Hr. unfold dist. cbn [fst snd].
  pose proof (sin2_cos2 a) as Ha. pose proof (sin2_cos2 b) as Hb.
  unfold Rsqr in Ha, Hb.
  pose proof (cos_minus a b) as Hm.
  pose proof (cos_2a_sin ((a - b) / 2)) as Hd.
  replace (2 * ((a - b) / 2)) with (a - b) in Hd by field.
  set (sd := sin ((a - b) / 2)) in *.
  assert (Hsq : (r * cos a - r * cos b) * (r * cos a - r * cos b)
                + (r * sin a - r * sin b) * (r * sin a - r * sin b)
                = Rsqr (2 * r * sd)).
  { unfold Rsqr.
    replace ((r * cos a - r * cos b) * (r * cos a - r * cos b)
             + (r * sin a - r * sin b) * (r * sin a - r * sin b))
      with (r * r * ((sin a * sin a + cos a * cos a)
                     + (sin b * sin b + cos b * cos b)
                     - 2 * (cos a * cos b + sin a * sin b)))
      by ring.
    rewrite Ha, Hb, <- Hm, Hd. ring. }
  rewrite Hsq, sqrt_Rsqr_abs, !Rabs_mult.
  rewrite (Rabs_pos_eq 2) by lra. rewrite (Rabs_pos_eq r) by assumption.
  reflexivity.
Qed.

(** X10.  The leaves of the circular layout are evenly spaced: every
    offset is at the same distance, [160 sin (pi / count)], from the next
    one, the last from the first. *)
Theorem circle_even_spacing (count : Z) (i : nat) :
  (Z.of_nat i < count)%Z ->
  exists p q,
    nth_error (calculateSpiderfiedPositionsCircle count) i = Some p
    /\ nth_error (calculateSpiderfiedPositionsCircle count)
                 (S i mod Z.to_nat count)
       = Some q
    /\ dist p q = 160 * sin (PI / IZR count).
Proof.
  intros Hi.
  assert (Hc : 0 < IZR count) by (apply IZR_lt; lia).
  pose proof PI_RGT_0 as Hpi.
  assert (Hx0 : 0 < PI / IZR count) by (apply Rdiv_lt_0_compat; lra).
  assert (Hx1 : PI / IZR count <= PI).
  { apply (Rmult_le_reg_r (IZR count)); [exact Hc|].
    unfold Rdiv. rewrite Rmult_assoc, Rinv_l by lra.
    assert (1 <= IZR count) by (apply IZR_le; lia). nra. }
  assert (Hsin : 0 <= sin (PI / IZR count)) by (apply sin_ge_0; lra).
  exists (spec_circle_offset count i),
         (spec_circle_offset count (S i mod Z.to_nat count)).
  split; [apply circle_nth_real; exact Hi|].
  assert (Hmod : (S i mod Z.to_nat count < Z.to_nat count)%nat)
    by (apply Nat.mod_upper_bound; lia).
  split; [apply circle_nth_real; lia|].
  unfold spec_circle_offset, spec_radius.
  rewrite dist_chord by lra.
  replace (2 * 80) with 160 by ring. f_equal.
  unfold spec_theta.
  destruct (Nat.eq_dec (S i) (Z.to_nat count)) as [Hlast|Hnext].
  - rewrite Hlast, Nat.Div0.mod_same. cbn [INR].
    replace ((INR i * (2 * PI / IZR count) - 0 * (2 * PI / IZR count)) / 2)
      with (PI - PI / IZR count).
    + rewrite sin_PI_x. apply Rabs_pos_eq. exact Hsin.
    + assert (Hn : IZR count = INR i + 1).
      { rewrite <- S_INR, Hlast, INR_IZR_INZ, Z2Nat.id by lia.
        reflexivity. }
      rewrite Hn. field. rewrite <- Hn. lra.
  - rewrite Nat.mod_small by lia. rewrite S_INR.
    replace ((INR i * (2 * PI / IZR count)
              - (INR i + 1) * (2 * PI / IZR count)) / 2)
      with (- (PI / IZR count)) by (field; lra).
    rewrite sin_neg, Rabs_Ropp. apply Rabs_pos_eq. exact Hsin.
Qed.
End CircleFacts.

(** ** The circle is centred on the anchor *)

Section CircleCentre.
Local Open Scope R_scope.

Lemma circle_as_map (count : Z) :
  calculateSpiderfiedPositionsCircle count
  = map (spec_circle_offset count) (seq 0 (Z.to_nat count)).
Proof.
  apply nth_error_ext. intros k.
  rewrite nth_error_map, nth_error_seq.
  destruct (Nat.ltb_spec k (Z.to_nat count)) as [Hlt|Hge].
  - rewrite circle_nth_real by lia. reflexivity.
  - cbn [option_map]. apply nth_error_None.
    pose proof (circle_length (num := R) count) as Hlen.
    unfold Offset in Hlen. rewrite Hlen. exact Hge.
Qed.

Lemma sumOffsets_snoc (l : list (R * R)) (p : R * R) :
  sumOffsets (l ++ [p])
  = (fst (sumOffsets l) + fst p, snd (sumOffsets l) + snd p).
Proof.
  induction l as [|q l IH]; cbn [app sumOffsets fold_right fst snd].
  - f_equal; ring.
  - fold (sumOffsets (l ++ [p])). fold (sumOffsets l).
    rewrite IH. cbn [fst snd]. f_equal; ring.
Qed.

Lemma sumOffsets_map_seq (f : nat -> R * R) (N : nat) :
  sumOffsets (map f (seq 0 (S N)))
  = (sum_f_R0 (fun k => fst (f k)) N, sum_f_R0 (fun k => snd (f k)) N).
Proof.
  induction N as [|N IH].
  - cbn. f_equal; ring.
  - rewrite seq_S, map_app. cbn [map Nat.add].
    rewrite sumOffsets_snoc, IH. reflexivity.
Qed.

Lemma sum_shift (g : nat -> R) (N : nat) :
  sum_f_R0 (fun k => g (S k)) N = sum_f_R0 g N - g O + g (S N).
Proof.
  induction N as [|N IH]; cbn [sum_f_R0].
  - ring.
  - rewrite IH. ring.
Qed.

Lemma sum_linear (a b : R) (f g : nat -> R) (N : nat) :
  sum_f_R0 (fun k => a * f k + b * g k) N
  = a * sum_f_R0 f N + b * sum_f_R0 g N.
Proof.
  induction N as [|N IH]; cbn [sum_f_R0].
  - ring.
  - rewrite IH. ring.
Qed.

Lemma sum_scal_l (a : R) (f : nat -> R) (N : nat) :
  sum_f_R0 (fun k => a * f k) N = a * sum_f_R0 f N.
Proof.
  induction N as [|N IH]; cbn [sum_f_R0].
  - reflexivity.
  - rewrite IH. ring.
Qed.

(** The sums of the cosines and of the sines of [n] angles that divide
    the turn evenly are zero, for [n >= 2]. *)
Lemma roots_sum (N : nat) (theta : R) :
  INR (S N) * theta = 2 * PI -> cos theta < 1 ->
  sum_f_R0 (fun k => cos (INR k * theta)) N = 0
  /\ sum_f_R0 (fun k => sin (INR k * theta)) N = 0.
Proof.
  intros Hturn Hcos.
  set (T := sum_f_R0 (fun k => cos (INR k * theta)) N).
  set (U := sum_f_R0 (fun k => sin (INR k * theta)) N).
  assert (HT : T = cos theta * T + (- sin theta) * U).
  { unfold T at 2, U. rewrite <- sum_linear.
    rewrite <- (sum_eq (fun k => cos (INR (S k) * theta))).
    - rewrite (sum_shift (fun k => cos (INR k * theta))).
      fold T. rewrite Hturn. cbn [INR].
      rewrite Rmult_0_l, cos_0, cos_2PI. ring.
    - intros k _. rewrite S_INR.
      replace ((INR k + 1) * theta) with (INR k * theta + theta) by ring.
      rewrite cos_plus. ring. }
  assert (HU : U = sin theta * T + cos theta * U).
  { unfold T, U at 2. rewrite <- sum_linear.
    rewrite <- (sum_eq (fun k => sin (INR (S k) * theta))).
    - rewrite (sum_shift (fun k => sin (INR k * theta))).
      fold U. rewrite Hturn. cbn [INR].
      rewrite Rmult_0_l, sin_0, sin_2PI. ring.
    - intros k _. rewrite S_INR.
      replace ((INR k + 1) * theta) with (INR k * theta + theta) by ring.
      rewrite sin_plus. ring. }
  pose proof (sin2_cos2 theta) as Hone. unfold Rsqr in Hone.
  set (c := cos theta) in *. set (s := sin theta) in *.
  assert (HA : (1 - c) * T + s * U = 0) by lra.
  assert (HB : (1 - c) * U - s * T = 0) by lra.
  assert (HT0 : (2 - 2 * c) * T = 0).
  { replace ((2 - 2 * c) * T)
      with ((1 - c) * ((1 - c) * T + s * U) - s * ((1 - c) * U - s * T)
            + (1 - (s * s + c * c)) * T) by ring.
    rewrite HA, HB, Hone. ring. }
  assert (HU0 : (2 - 2 * c) * U = 0).
  { replace ((2 - 2 * c) * U)
      with ((1 - c) * ((1 - c) * U - s * T) + s * ((1 - c) * T + s * U)
            + (1 - (s * s + c * c)) * U) by ring.
    rewrite HA, HB, Hone. ring. }
  split.
  - apply Rmult_integral in HT0. destruct HT0; [lra | assumption].
  - apply Rmult_integral in HU0. destruct HU0; [lra | assumption].
Qed.

Lemma cos_theta_lt_1 (theta : R) : 0 < theta <= PI -> cos theta < 1.
Proof.
  intros [H0 H1].
  replace theta with (2 * (theta / 2)) by field.
  rewrite cos_2a_sin.
  assert (0 < sin (theta / 2)) by (apply sin_gt_0; lra).
  nra.
Qed.

(** X11.  For [count >= 2] the offsets of the circular layout sum to
    zero: the leaves are centred on the anchor. *)
Theorem circle_centred (count : Z) :
  (2 <= count)%Z ->
  sumOffsets (calculateSpiderfiedPositionsCircle count) = (0, 0).
Proof.
  intros Hc. rewrite circle_as_map.
  destruct (Z.to_nat count) as [|N] eqn:HN; [lia|].
  rewrite sumOffsets_map_seq.
  unfold spec_circle_offset, spec_theta, spec_radius. cbn [fst snd].
  assert (Hn : IZR count = INR (S N)).
  { rewrite <- HN, INR_IZR_INZ, Z2Nat.id by lia. reflexivity. }
  assert (Hpos : 2 <= IZR count) by (apply IZR_le; exact Hc).
  pose proof PI_RGT_0 as Hpi.
  assert (Hturn : INR (S N) * (2 * PI / IZR count) = 2 * PI).
  { rewrite <- Hn. field. lra. }
  assert (Hth : 0 < 2 * PI / IZR count <= PI).
  { split; [apply Rdiv_lt_0_compat; lra|].
    apply (Rmult_le_reg_r (IZR count)); [lra|].
    unfold Rdiv. rewrite Rmult_assoc, Rinv_l by lra. nra. }
  destruct (roots_sum N Hturn (cos_theta_lt_1 Hth)) as [HT HU].
  rewrite (sum_scal_l 80 (fun k => cos (INR k * (2 * PI / IZR count)))).
  rewrite (sum_scal_l 80 (fun k => sin (INR k * (2 * PI / IZR count)))).
  rewrite HT, HU. f_equal; ring.
Qed.
End CircleCentre.

(** ** Instances of the further theorems *)

Section MoreInstances.
Import String.
Local Open Scope string_scope.

Lemma spiderLeaves_aligned_witness :
  nth_error (sample_leaves 3) 1 = Some (mkLeaf tt (0%R, 0%R))
  /\ exists p,
       nth_error (spiderfiedPositions (sample_leaves 3)) 1 = Some p
       /\ nth_error
            (spiderLeaves (spiderfiedPositions (sample_leaves 3))
                          (0%R, 0%R) 0 (sample_leaves 3))
            1
          = Some (mkSpiderLeaf tt (Some p) (0%R, 0%R)).
Proof.
  split; [reflexivity|].
  apply (proj2 (@spiderLeaves_aligned R _ unit (0%R, 0%R) (sample_leaves 3))
               1%nat (mkLeaf tt (0%R, 0%R)) eq_refl).
Defined.

Lemma run_dimmed_while_spread_witness :
  app_style (run [@Load R unit (fun _ => Image);
                  Click [Some 7%Z] (sample_cluster 13 3) (0%R, 0%R);
                  @Load R unit (fun _ => Image);
                  @Mouse R unit "mouseenter"]
                 (initialApp unit))
  = Some sample_spread
  /\ ((spiderfyData sample_spread = []
       /\ clustersOpacity sample_spread = IZR 1
       /\ unclusteredOpacity sample_spread = IZR 1)
      \/ (spiderfyData sample_spread <> []
          /\ clustersOpacity sample_spread = Q2R (6 # 10)
          /\ unclusteredOpacity sample_spread = Q2R (5 # 10)
          /\ Forall (fun l => sl_iconOffset l <> None)
                    (spiderfyData sample_spread)
          /\ exists lngLat,
               Forall (fun l => sl_coordinates l = lngLat)
                      (spiderfyData sample_spread))).
Proof.
  split; [reflexivity|].
  apply (@run_dimmed_while_spread R _ unit
           [@Load R unit (fun _ => Image);
            Click [Some 7%Z] (sample_cluster 13 3) (0%R, 0%R);
            @Load R unit (fun _ => Image);
            @Mouse R unit "mouseenter"]
           sample_spread eq_refl).
Defined.

Lemma centerMapToCluster_cases_witness :
  (hd_error [Some 7%Z] = Some (Some 7%Z)
   /\ app_style sample_app <> None
   /\ expansionZoom (sample_cluster 13 3) 7 = (false, Some 13%Q)
   /\ ~ (13 == 0)%Q
   /\ (clusterMaxZoom < 13)%Q)
  /\ centerMapToCluster [Some 7%Z] (sample_cluster 13 3) (0%R, 0%R)
                        sample_app
     = (mkApp (spiderFyCluster (app_style sample_app)
                               (clusterLeaves (sample_cluster 13 3))
                               7 (0%R, 0%R))
              (app_images sample_app) (app_cursor sample_app),
        Some (mkEaseTo (0%R, 0%R) None)).
Proof.
  assert (Hstyle : app_style sample_app <> None) by discriminate.
  assert (Hnz : ~ (13 == 0)%Q) by discriminate.
  assert (Hgt : (clusterMaxZoom < 13)%Q) by reflexivity.
  split; [repeat split; assumption|].
  apply (proj2 (proj2 (@centerMapToCluster_cases R _ unit [Some 7%Z]
                         (sample_cluster 13 3) (0%R, 0%R) sample_app)
                      7%Z 13%Q eq_refl Hstyle eq_refl Hnz)).
  exact Hgt.
Defined.

Lemma iconImage_floor_witness :
  ((9 # 2) < 8)%Q /\ iconImage (9 # 2) = "4-icon".
Proof.
  split; [reflexivity|].
  apply (proj1 (iconImage_floor (9 # 2))). reflexivity.
Defined.

Lemma iconImage_loaded_witness :
  ((7 <= 15 # 2)%Q /\ (15 # 2 < 8)%Q)
  /\ ~ In (iconImage (15 # 2)) (addIconImages (fun _ => Image) []).
Proof.
  assert (H : (7 <= 15 # 2)%Q /\ (15 # 2 < 8)%Q).
  { split; [discriminate | reflexivity]. }
  split; [exact H|].
  apply (proj1 (iconImage_loaded (fun _ => Image) (15 # 2)) H).
Defined.

Lemma circle_style_classes_witness :
  (50 <= 800)%Z /\ (circleRadius 50 <= circleRadius 800)%Z.
Proof.
  split; [lia|]. apply (proj1 (circle_style_classes 50 800)). lia.
Defined.

Lemma spiral_distance_bounds_witness :
  (Z.of_nat 4 < 12)%Z
  /\ exists p,
       nth_error (calculateSpiderfiedPositions 12) 4 = Some p
       /\ (25 <= dist anchor p <= 25 * (INR 4 + 1))%R
       /\ (4%nat = 0%nat -> dist anchor p = 25%R).
Proof.
  split; [lia|]. apply (@spiral_distance_bounds 12 4). lia.
Defined.

Lemma circle_even_spacing_witness :
  (Z.of_nat 5 < 6)%Z
  /\ exists p q,
       nth_error (calculateSpiderfiedPositionsCircle 6) 5 = Some p
       /\ nth_error (calculateSpiderfiedPositionsCircle 6)
                    (6 mod Z.to_nat 6)
          = Some q
       /\ dist p q = (160 * sin (PI / IZR 6))%R.
Proof.
  split; [lia|]. apply (@circle_even_spacing 6 5). lia.
Defined.

Lemma circle_centred_witness :
  (2 <= 5)%Z
  /\ sumOffsets (calculateSpiderfiedPositionsCircle 5) = (0%R, 0%R).
Proof.
  split; [lia|]. apply (@circle_centred 5). lia.
Defined.
End MoreInstances.
